(** * p2p-music server: the catalog synchronisation pipeline

    A shallow embedding of [server/src/index.ts]: the directory walker, the
    catalog file ([loadState] / [saveState]), the per-file indexing task of
    [scanAndIndex] together with the worker pool that schedules it, and the
    mime resolution of the streaming route. *)

From Stdlib Require Import String Ascii List ZArith QArith Bool Lia.
From Stdlib Require Import Permutation.
Import ListNotations.

Local Open Scope string_scope.
Local Open Scope list_scope.
Local Open Scope Z_scope.

Set Implicit Arguments.

(** ** JavaScript values used by the server *)

(** Truthiness of an optional string: [undefined] and the empty string are
    falsy, every other string is truthy. *)
Definition truthy (v : option string) : bool :=
  match v with
  | Some s => negb (s =? "")%string
  | None => false
  end.

(** [a || b] on optional strings. *)
Definition js_or (a b : option string) : option string :=
  if truthy a then a else b.

(** [v || d] where [d] is a string literal. *)
Definition js_or_default (v : option string) (d : string) : string :=
  match v with
  | Some s => if (s =? "")%string then d else s
  | None => d
  end.

(** [xs.join(sep)]. *)
Fixpoint join (sep : string) (xs : list string) : string :=
  match xs with
  | [] => ""
  | [x] => x
  | x :: rest => (x ++ sep ++ join sep rest)%string
  end.

(** ** The data model *)

(** [type Track]. A [number] holding a byte count is an integer; the duration
    is a finite double, kept as a rational and never inspected. *)
Record Track := mkTrack {
  relativePath : string;
  cid : option string;
  size : option Z;
  title : option string;
  artist : option string;
  album : option string;
  duration : option Q;
  mime : option string
}.

(** [Record<string, Track>]: a JavaScript object with string keys. Its own
    properties are enumerated in insertion order, which [Object.values]
    exposes, so the object is an association list with unique keys. *)
Definition Catalog := list (string * Track).

(** [state[k]]. *)
Fixpoint get (k : string) (st : Catalog) : option Track :=
  match st with
  | [] => None
  | (k', t) :: rest => if (k' =? k)%string then Some t else get k rest
  end.

(** [state[k] = t]: an existing property keeps its position, a new one is
    appended. *)
Fixpoint set (k : string) (t : Track) (st : Catalog) : Catalog :=
  match st with
  | [] => [(k, t)]
  | (k', t') :: rest =>
      if (k' =? k)%string then (k', t) :: rest else (k', t') :: set k t rest
  end.

(** [Object.values(state)]. *)
Definition values (st : Catalog) : list Track := map snd st.

Definition keys (st : Catalog) : list string := map fst st.

(** ** What the catalog file can parse to *)

(** A JSON value the server never looks into, in the text
    [JSON.stringify] gives it: an element of an array, the digits of a
    number. *)
Definition Raw := string.

(** A number, a string (one character a code unit) or a boolean. A number
    is a finite double, in the text [JSON.stringify] gives it. *)
Inductive Prim :=
| PNumber (text : Raw)
| PString (units : string)
| PBoolean (b : bool).

(** The value of the variable [state]. [JSON.parse] returns any JSON value
    and [loadState] hands it on unchecked, so besides a plain object it can
    be an array, [null] or a primitive. An array is an object too: it takes
    string-keyed properties beside its elements. The keys the server uses end
    in an audio extension, so they never name an array index, a character of
    a string or an inherited property. *)
Inductive StateValue :=
| Object (entries : Catalog)
| Array (elements : list Raw) (named : Catalog)
| Null
| Primitive (p : Prim).

(** The kind of value, which a run never changes. *)
Inductive Kind :=
| IsObject
| IsArray (elements : list Raw)
| IsNull
| IsPrimitive (p : Prim).

Definition kind_of (v : StateValue) : Kind :=
  match v with
  | Object _ => IsObject
  | Array elements _ => IsArray elements
  | Null => IsNull
  | Primitive p => IsPrimitive p
  end.

(** The string-keyed own properties of the value. *)
Definition props (v : StateValue) : Catalog :=
  match v with
  | Object entries => entries
  | Array _ named => named
  | Null | Primitive _ => []
  end.

(** The value of a kind with its string-keyed properties; [null] and
    primitives have none. *)
Definition value (k : Kind) (st : Catalog) : StateValue :=
  match k with
  | IsObject => Object st
  | IsArray elements => Array elements st
  | IsNull => Null
  | IsPrimitive p => Primitive p
  end.

(** [state[rel]] can be read: on [null] it throws a [TypeError]; on a
    primitive it is [undefined]. *)
Definition indexable (k : Kind) : bool :=
  match k with
  | IsNull => false
  | _ => true
  end.

(** [state[rel] = ...] can be done: the module is strict code, where
    creating a property on a primitive throws a [TypeError], as it does on
    [null]. *)
Definition assignable (k : Kind) : bool :=
  match k with
  | IsObject | IsArray _ => true
  | IsNull | IsPrimitive _ => false
  end.

(** ** Change detection *)

(** The guard of [scanAndIndex]:
    [prev && prev.size === stat.size && prev.cid]. *)
Definition likely_unchanged (prev : option Track) (stat_size : Z) : bool :=
  match prev with
  | None => false
  | Some p =>
      match size p with
      | Some s => (s =? stat_size) && truthy (cid p)
      | None => false
      end
  end.

(** The file is ingested exactly when the guard does not return early. *)
Definition needsIngest (stat_size : Z) (prev : option Track) : bool :=
  negb (likely_unchanged prev stat_size).

(** ** Paths *)

(** [path.join(dir, name)] for a normalised [dir] and a directory entry name
    (never empty, [.] or [..], and free of separators). For a [dir] that
    ends in a separator Node writes the separator once where this writes it
    twice; the keys [relative] computes from the paths are the same. *)
Definition path_join (dir name : string) : string :=
  (dir ++ "/" ++ name)%string.

Fixpoint strip_prefix (pre s : string) : option string :=
  match pre, s with
  | EmptyString, _ => Some s
  | String a pre', String b s' =>
      if Ascii.eqb a b then strip_prefix pre' s' else None
  | String _ _, EmptyString => None
  end.

(** [path.relative(from, to)] on the paths the walker produces, which all
    lie below [from]; other arguments (for which Node climbs with [..]) do not
    occur and are returned as they are. *)
Definition relative (from to : string) : string :=
  match strip_prefix (from ++ "/")%string to with
  | Some r => r
  | None => to
  end.

(** [p] lies below the directory [dir]. *)
Definition below (dir p : string) : Prop := exists r, p = path_join dir r.

(** The text after the last occurrence of [c], when [c] occurs. *)
Fixpoint after_last (c : ascii) (s : string) : option string :=
  match s with
  | EmptyString => None
  | String a r =>
      match after_last c r with
      | Some t => Some t
      | None => if Ascii.eqb a c then Some r else None
      end
  end.

(** [path.basename] of a path that does not end in a separator, as the paths
    of the walk, which end in the name of a directory entry; Node drops
    trailing separators first. *)
Definition basename (p : string) : string :=
  match after_last "/" p with
  | Some b => b
  | None => p
  end.

(** [path.extname], on the same paths: from the last dot of the base name to
    its end; empty when there is no dot, when the only dot opens the base
    name, and for [..]. *)
Definition extname (p : string) : string :=
  match basename p with
  | EmptyString => ""
  | String _ r as b =>
      match after_last "." r with
      | Some ext => if (b =? "..")%string then "" else ("." ++ ext)%string
      | None => ""
      end
  end.

Definition lower_ascii (a : ascii) : ascii :=
  let n := nat_of_ascii a in
  if (65 <=? n)%nat && (n <=? 90)%nat then ascii_of_nat (n + 32) else a.

(** [s.toLowerCase()]; on the letters of [AUDIO_EXTS] only ASCII capitals
    lower to them. *)
Fixpoint toLowerCase (s : string) : string :=
  match s with
  | EmptyString => EmptyString
  | String a r => String (lower_ascii a) (toLowerCase r)
  end.

Definition AUDIO_EXTS : list string :=
  [".mp3"; ".flac"; ".m4a"; ".aac"; ".wav"; ".ogg"; ".opus"].

Definition isAudioFile (filePath : string) : bool :=
  existsb (String.eqb (toLowerCase (extname filePath))) AUDIO_EXTS.

(** ** The directory walker *)

(** What [fs.readdirSync(dir, { withFileTypes: true })] yields below a
    directory: entries whose [isDirectory()] is false (regular files, symbolic
    links, ...), and directories together with the outcome of reading them in
    turn, [None] when [readdirSync] throws there. *)
#[local] Unset Elimination Schemes.
Inductive Dirent :=
| Other (name : string)
| Directory (name : string) (listing : option (list Dirent)).
#[local] Set Elimination Schemes.

(** One iteration of the loop of [walk], for the entry [entry] of [dir];
    [None] is a thrown exception, which nothing in [walk] catches. *)
Fixpoint walk_entry (dir : string) (entry : Dirent) : option (list string) :=
  match entry with
  | Other name => Some [path_join dir name]
  | Directory name listing =>
      match listing with
      | None => None
      | Some entries =>
          (fix loop (es : list Dirent) : option (list string) :=
             match es with
             | [] => Some []
             | e :: rest =>
                 match walk_entry (path_join dir name) e with
                 | None => None
                 | Some out1 =>
                     match loop rest with
                     | None => None
                     | Some out2 => Some (out1 ++ out2)
                     end
                 end
             end) entries
      end
  end.

(** The loop of [walk] over the entries of [dir]. *)
Fixpoint walk_loop (dir : string) (es : list Dirent) : option (list string) :=
  match es with
  | [] => Some []
  | e :: rest =>
      match walk_entry dir e with
      | None => None
      | Some out1 =>
          match walk_loop dir rest with
          | None => None
          | Some out2 => Some (out1 ++ out2)
          end
      end
  end.

(** [walk(dir)], given what reading [dir] yields. *)
Definition walk (dir : string) (listing : option (list Dirent))
  : option (list string) :=
  match listing with
  | None => None
  | Some entries => walk_loop dir entries
  end.

(** The entries the walk has to enumerate: every non-directory at any depth,
    also below directories that cannot be read further up or down. *)
Fixpoint files_below (dir : string) (entry : Dirent) : list string :=
  match entry with
  | Other name => [path_join dir name]
  | Directory name listing =>
      match listing with
      | None => []
      | Some entries =>
          (fix loop (es : list Dirent) : list string :=
             match es with
             | [] => []
             | e :: rest => files_below (path_join dir name) e ++ loop rest
             end) entries
      end
  end.

Definition files_under (dir : string) (es : list Dirent) : list string :=
  flat_map (files_below dir) es.

(** Every directory of the tree can be read. *)
Fixpoint readable (entry : Dirent) : bool :=
  match entry with
  | Other _ => true
  | Directory _ listing =>
      match listing with
      | None => false
      | Some entries =>
          (fix loop (es : list Dirent) : bool :=
             match es with
             | [] => true
             | e :: rest => readable e && loop rest
             end) entries
      end
  end.

(** ** The catalog file *)

(** What [STATE_FILE] holds, as [JSON.parse] sees it: no file at all; the
    complete text of a JSON value, which is an object (a catalog), an array,
    [null] or a primitive; or a text that does not parse (the empty file left
    by opening with truncation, a proper prefix of a value's text, or any
    other text that is not JSON). *)
Inductive FileContent :=
| NoFile
| Json (c : Catalog)
| JsonArray (elements : list Raw)
| JsonNull
| JsonPrimitive (p : Prim)
| Torn.

(** [loadState]: whatever [JSON.parse] returns, and the empty object when
    reading or parsing throws. *)
Definition loadState (file : FileContent) : StateValue :=
  match file with
  | Json c => Object c
  | JsonArray elements => Array elements []
  | JsonNull => Null
  | JsonPrimitive p => Primitive p
  | NoFile | Torn => Object []
  end.

(** [JSON.stringify(state, null, 2)]: of an array only the elements are
    written, its string-keyed properties are left out. *)
Definition stringify (v : StateValue) : FileContent :=
  match v with
  | Object entries => Json entries
  | Array elements _ => JsonArray elements
  | Null => JsonNull
  | Primitive p => JsonPrimitive p
  end.

(** Where [saveState] stops: it runs to its end, it stops before
    [writeFileSync] has opened the file ([mkdirSync] or the open throws, or the
    process dies there), or it stops after the file was opened, which
    truncates it, and before the last byte is written. *)
Inductive Interruption :=
| Completes
| BeforeOpen
| MidWrite.

(** [saveState(state)]: [writeFileSync] opens [STATE_FILE] itself for
    writing and writes the text in place. Returns the file left behind and
    whether the call returned normally. *)
Definition saveState (i : Interruption) (file : FileContent) (v : StateValue)
  : FileContent * bool :=
  match i with
  | Completes => (stringify v, true)
  | BeforeOpen => (file, false)
  | MidWrite => (Torn, false)
  end.

(** ** The streaming route *)

(** The predicate [(t) => t.cid === cid]. *)
Definition has_cid (requested : string) (t : Track) : bool :=
  match cid t with
  | Some c => (c =? requested)%string
  | None => false
  end.

(** [Object.values(state).find((t) => t.cid === cid)]. *)
Definition find_by_cid (requested : string) (st : Catalog) : option Track :=
  find (has_cid requested) (values st).

(** The catalog as the data model has it: an entry that has a [cid], an
    ingested one, has a [mime] that is not empty. *)
Definition ingested_have_mime (st : Catalog) : Prop :=
  Forall (fun e => cid (snd e) <> None -> truthy (mime (snd e)) = true) st.

(** [match?.mime || "audio/mpeg"], the [Content-Type] of the response. *)
Definition content_type (st : Catalog) (requested : string) : string :=
  js_or_default
    (match find_by_cid requested st with
     | Some t => mime t
     | None => None
     end) "audio/mpeg".

(** ** The environment of a run *)

(** The part of [parseFile]'s result that [scanAndIndex] reads:
    [m.common.title], [m.common.artists], [m.common.artist],
    [m.common.album] and [m.format.duration]. *)
Record IAudioMetadata := mkMetadata {
  common_title : option string;
  common_artists : option (list string);
  common_artist : option string;
  common_album : option string;
  format_duration : option Q
}.

(** The local object [meta]. *)
Record Meta := mkMeta {
  meta_title : option string;
  meta_artist : option string;
  meta_album : option string;
  meta_duration : option Q
}.

(** [let meta: any = {}]. *)
Definition empty_meta : Meta := mkMeta None None None None.

(** The object built in the [try] block;
    [(artists && artists.join(", ")) || artist]. *)
Definition meta_of (m : IAudioMetadata) : Meta :=
  mkMeta (common_title m)
         (js_or (option_map (join ", ") (common_artists m)) (common_artist m))
         (common_album m)
         (format_duration m).

(** The value of [res.cid]: a content identifier prints as a multibase
    text, which is never empty. *)
Record CID := mkCID {
  cid_head : ascii;
  cid_tail : string
}.

(** [res.cid.toString()]. *)
Definition CID_toString (c : CID) : string := String (cid_head c) (cid_tail c).

(** Everything outside the process that one run of [scanAndIndex] consults.
    Each candidate path is visited once in a run, so every external call is a
    function of the path; [None] stands for a thrown exception or a rejected
    promise ([false] for [mimeLookup]). Every awaited call is taken to settle
    in the end: [await parseFile] and [await ipfs.add] have no timeout in the
    source, and a call that never settles leaves the run for ever in a
    configuration that is reachable here and not [settled]; the theorems
    about settled configurations and about returned runs say nothing of such
    a run, and those about every reachable configuration cover it. *)
Record World := mkWorld {
  MUSIC_DIR : string;
  music : option (list Dirent);
  statSync : string -> option Z;
  parseFile : string -> option IAudioMetadata;
  ipfs_add : string -> option CID;
  mimeLookup : string -> option string;
  save_interruption : Interruption
}.

(** [walk(MUSIC_DIR).filter(isAudioFile)], when the walk returns. *)
Definition absFiles (w : World) : option (list string) :=
  option_map (filter isAudioFile) (walk (MUSIC_DIR w) (music w)).

(** [mimeLookup(absPath) || "application/octet-stream"]. *)
Definition mimeType (w : World) (absPath : string) : string :=
  js_or_default (mimeLookup w absPath) "application/octet-stream".

(** The object assigned to [state[rel]]. *)
Definition new_entry (rel c : string) (stat_size : Z) (meta : Meta)
    (mimeTy : string) : Track :=
  mkTrack rel (Some c) (Some stat_size) (meta_title meta) (meta_artist meta)
          (meta_album meta) (meta_duration meta) (Some mimeTy).

(** ** One run of [scanAndIndex] as a transition system *)

(** Where a started task is suspended: at [await parseFile(absPath)], or at
    [await ipfs.add(file, { pin: true })] with the [meta] it has built. *)
Inductive Phase :=
| AwaitMeta
| AwaitAdd (meta : Meta).

(** A task the queue has started and that has not settled, with the locals
    [absPath], [rel] and [stat.size] it holds. *)
Record Task := mkTask {
  task_path : string;
  task_rel : string;
  task_size : Z;
  task_phase : Phase
}.

(** The promise [scanAndIndex] returned: still pending, rejected, or resolved
    with [{ total, added }]. *)
Inductive Outcome :=
| Pending
| Rejected
| Returned (total added : nat).

(** The run: the tasks the queue has not started, the started ones, the
    shared value [state], as its string-keyed properties and its kind, the
    counter [added], the catalog file, and the promise of the run. Three
    fields are history only: the paths handed to [ipfs.add], the keys
    assigned in [state], and whether a task has thrown. *)
Record Config := mkConfig {
  pending : list string;
  running : list Task;
  state : Catalog;
  kind : Kind;
  added : nat;
  pushes : list string;
  written : list string;
  failed : bool;
  outcome : Outcome;
  disk : FileContent
}.

(** The concurrency the queue is created with. *)
Definition concurrency : nat := 2.

(** A task throws: its promise rejects, so [Promise.all] rejects and with it
    the run, unless that has happened before. The queue goes on with the
    other tasks. *)
Definition reject (o : Outcome) : Outcome :=
  match o with
  | Pending => Rejected
  | _ => o
  end.

(** A task throws: the run is rejected unless it already is, and the task
    leaves the queue, of which [pending'] and [running'] remain. *)
Definition thrown (c : Config) (pending' : list string)
    (running' : list Task) : Config :=
  mkConfig pending' running' (state c) (kind c) (added c) (pushes c)
           (written c) true (reject (outcome c)) (disk c).

(** The queue starts the task of [absPath], which runs to its first [await]:
    it throws in [statSync] or in reading [state[rel]], returns at the guard,
    or suspends in [parseFile]. *)
Definition start_task (w : World) (absPath : string) (rest : list string)
    (c : Config) : Config :=
  let rel := relative (MUSIC_DIR w) absPath in
  match statSync w absPath with
  | None => thrown c rest (running c)
  | Some stat_size =>
      if indexable (kind c) then
        if likely_unchanged (get rel (state c)) stat_size then
          mkConfig rest (running c) (state c) (kind c) (added c) (pushes c)
                   (written c) (failed c) (outcome c) (disk c)
        else
          mkConfig rest (running c ++ [mkTask absPath rel stat_size AwaitMeta])
                   (state c) (kind c) (added c) (pushes c) (written c)
                   (failed c) (outcome c) (disk c)
      else thrown c rest (running c)
  end.

(** [parseFile] settles for the task [t], found between [before] and [after]:
    [meta] is built, or left empty when it threw, and the task calls
    [ipfs.add]. *)
Definition meta_done (w : World) (before : list Task) (t : Task)
    (after : list Task) (c : Config) : Config :=
  let meta := match parseFile w (task_path t) with
              | Some m => meta_of m
              | None => empty_meta
              end in
  mkConfig (pending c)
           (before ++ mkTask (task_path t) (task_rel t) (task_size t)
                             (AwaitAdd meta) :: after)
           (state c) (kind c) (added c) (pushes c ++ [task_path t]) (written c)
           (failed c) (outcome c) (disk c).

(** [ipfs.add] settles for the task [t]: the task throws, in the call or in
    the assignment that follows it, or it assigns [state[rel]], counts itself
    and returns. *)
Definition add_done (w : World) (before : list Task) (t : Task) (meta : Meta)
    (after : list Task) (c : Config) : Config :=
  match ipfs_add w (task_path t) with
  | None => thrown c (pending c) (before ++ after)
  | Some res =>
      if assignable (kind c) then
        mkConfig (pending c) (before ++ after)
                 (set (task_rel t)
                      (new_entry (task_rel t) (CID_toString res) (task_size t)
                                 meta (mimeType w (task_path t)))
                      (state c))
                 (kind c) (S (added c)) (pushes c) (task_rel t :: written c)
                 (failed c) (outcome c) (disk c)
      else thrown c (pending c) (before ++ after)
  end.

(** [Promise.all] has resolved: [saveState(state)] and the [return]. *)
Definition finish (w : World) (total : nat) (c : Config) : Config :=
  let (file, ok) := saveState (save_interruption w) (disk c)
                              (value (kind c) (state c)) in
  mkConfig (pending c) (running c) (state c) (kind c) (added c) (pushes c)
           (written c) (failed c)
           (if ok then Returned total (added c) else Rejected) file.

(** The steps of a run. The queue starts a task while fewer than
    [concurrency] are running; a suspended task resumes when its awaited call
    settles, in any order; when every task has returned, the run saves and
    returns. *)
Inductive step (w : World) (total : nat) : Config -> Config -> Prop :=
| step_start c absPath rest :
    pending c = absPath :: rest ->
    (length (running c) < concurrency)%nat ->
    step w total c (start_task w absPath rest c)
| step_meta c before t after :
    running c = before ++ t :: after ->
    task_phase t = AwaitMeta ->
    step w total c (meta_done w before t after c)
| step_add c before t meta after :
    running c = before ++ t :: after ->
    task_phase t = AwaitAdd meta ->
    step w total c (add_done w before t meta after c)
| step_finish c :
    pending c = [] ->
    running c = [] ->
    outcome c = Pending ->
    step w total c (finish w total c).

(** The configurations a run reaches from [c0]. *)
Inductive steps (w : World) (total : nat) (c0 : Config) : Config -> Prop :=
| steps_refl : steps w total c0 c0
| steps_step c c' :
    steps w total c0 c -> step w total c c' -> steps w total c0 c'.

(** The run after its synchronous prefix, [walk] having returned: the
    candidates [files] are queued and [state] is the catalog just loaded. *)
Definition init (files : list string) (file : FileContent) : Config :=
  mkConfig files [] (props (loadState file)) (kind_of (loadState file))
           0 [] [] false Pending file.

(** The candidates of a run; none when the walk throws. *)
Definition candidates (w : World) : list string :=
  match absFiles w with
  | Some files => files
  | None => []
  end.

(** [absFiles.length]. *)
Definition total_of (w : World) : nat := length (candidates w).

(** The key of a candidate, [path.relative(MUSIC_DIR, absPath)]. *)
Definition rel_of (w : World) (absPath : string) : string :=
  relative (MUSIC_DIR w) absPath.

(** [c] is a configuration of a run of [scanAndIndex] in [w] that started
    with the catalog file [file]. When [walk] throws, the run is rejected
    before it has loaded or queued anything, and has no configuration. *)
Definition reachable (w : World) (file : FileContent) (c : Config) : Prop :=
  absFiles w <> None
  /\ steps w (total_of w) (init (candidates w) file) c.

(** The task of the candidate [absPath] has returned: [statSync] gave a size,
    and the task returned at the guard or assigned its key. *)
Definition completed (w : World) (file : FileContent) (c : Config)
    (absPath : string) : Prop :=
  exists sz,
    statSync w absPath = Some sz
    /\ (likely_unchanged (get (rel_of w absPath) (props (loadState file))) sz = true
        \/ In (rel_of w absPath) (written c)).

(** A running task holds a candidate, its key and its size. *)
Definition task_wf (w : World) (t : Task) : Prop :=
  In (task_path t) (candidates w)
  /\ task_rel t = rel_of w (task_path t)
  /\ statSync w (task_path t) = Some (task_size t).

(** Two worlds show the same files: same root, same tree, same sizes. *)
Definition same_files (w1 w2 : World) : Prop :=
  MUSIC_DIR w2 = MUSIC_DIR w1 /\ music w2 = music w1
  /\ forall absPath, statSync w2 absPath = statSync w1 absPath.

(** Nothing is left to do. *)
Definition settled (c : Config) : Prop :=
  pending c = [] /\ running c = [] /\ outcome c <> Pending.

(** The calls to [ipfs.add] that have not settled. *)
Definition in_flight (c : Config) : nat :=
  length (filter (fun t => match task_phase t with
                           | AwaitAdd _ => true
                           | AwaitMeta => false
                           end) (running c)).

(** ** One schedule, run to the end *)

(** The queue starts a task as soon as a slot is free; otherwise the call
    awaited by the oldest running task settles; at the end the run saves. *)
Definition next (w : World) (total : nat) (c : Config) : option Config :=
  match pending c, running c with
  | absPath :: rest, r =>
      if (length r <? concurrency)%nat then
        Some (start_task w absPath rest c)
      else
        match r with
        | t :: after =>
            Some (match task_phase t with
                  | AwaitMeta => meta_done w [] t after c
                  | AwaitAdd meta => add_done w [] t meta after c
                  end)
        | [] => None
        end
  | [], t :: after =>
      Some (match task_phase t with
            | AwaitMeta => meta_done w [] t after c
            | AwaitAdd meta => add_done w [] t meta after c
            end)
  | [], [] =>
      match outcome c with
      | Pending => Some (finish w total c)
      | _ => None
      end
  end.

Fixpoint run (w : World) (total : nat) (fuel : nat) (c : Config) : Config :=
  match fuel with
  | O => c
  | S fuel' =>
      match next w total c with
      | Some c' => run w total fuel' c'
      | None => c
      end
  end.

(** What is left to do, counted in steps. *)
Definition phase_weight (t : Task) : nat :=
  match task_phase t with
  | AwaitMeta => 2
  | AwaitAdd _ => 1
  end.

Definition weight (c : Config) : nat :=
  3 * length (pending c) + list_sum (map phase_weight (running c))
  + match outcome c with Pending => 1 | _ => 0 end.

(** [scanAndIndex(ipfs)] under that schedule, from the queued candidates to
    the configuration in which nothing is left to do. *)
Definition scanAndIndex_run (w : World) (file : FileContent) : Config :=
  let c := init (candidates w) file in run w (total_of w) (weight c) c.

(** [scanAndIndex(ipfs)]: the promise of the run and the catalog file it
    leaves. *)
Definition scanAndIndex (w : World) (file : FileContent)
  : Outcome * FileContent :=
  match absFiles w with
  | None => (Rejected, file)
  | Some _ => let c := scanAndIndex_run w file in (outcome c, disk c)
  end.

(** ** What a run does to one candidate *)

(** The object [meta] a task holds once [parseFile] has settled. *)
Definition meta_for (w : World) (absPath : string) : Meta :=
  match parseFile w absPath with
  | Some m => meta_of m
  | None => empty_meta
  end.

(** The entry the task of [absPath] assigns when the store returns [res]. *)
Definition entry_of (w : World) (absPath : string) (stat_size : Z) (res : CID)
  : Track :=
  new_entry (rel_of w absPath) (CID_toString res) stat_size
            (meta_for w absPath) (mimeType w absPath).

(** The guard lets the candidate through when compared with the catalog the
    run loaded. *)
Definition stale (w : World) (file : FileContent) (absPath : string)
    (stat_size : Z) : bool :=
  needsIngest stat_size (get (rel_of w absPath) (props (loadState file))).

(** The started tasks that wait for [parseFile]. *)
Definition awaiting_meta (c : Config) : nat :=
  length (filter (fun t => match task_phase t with
                           | AwaitMeta => true
                           | AwaitAdd _ => false
                           end) (running c)).

(** What a running task knows: it passed the guard, and past [parseFile] it
    holds the [meta] of its file and has handed the file to the store. *)
Definition task_knows (w : World) (file : FileContent) (c : Config)
    (t : Task) : Prop :=
  stale w file (task_path t) (task_size t) = true
  /\ match task_phase t with
     | AwaitMeta => True
     | AwaitAdd meta =>
         meta = meta_for w (task_path t) /\ In (task_path t) (pushes c)
     end.

(** The task of the candidate throws: in [statSync]; in [state[rel]], when
    the catalog file held [null]; or, when the guard lets it through, in the
    push or in the assignment of its entry, which a primitive does not
    take. *)
Definition fails (w : World) (file : FileContent) (absPath : string) : Prop :=
  statSync w absPath = None
  \/ exists sz,
       statSync w absPath = Some sz
       /\ (indexable (kind_of (loadState file)) = false
           \/ (needsIngest sz (get (rel_of w absPath) (props (loadState file)))
                = true
               /\ (ipfs_add w absPath = None
                   \/ assignable (kind_of (loadState file)) = false))).

(** The task of the candidate assigns an entry: the guard lets it through
    and the store takes the file. *)
Definition ingests (w : World) (file : FileContent) (absPath : string) : bool :=
  match statSync w absPath with
  | Some sz =>
      stale w file absPath sz
      && match ipfs_add w absPath with
         | Some _ => true
         | None => false
         end
  | None => false
  end.

(** ** The catalog across requests *)

(** An entry as [scanAndIndex] writes them: filed under its own
    [relativePath], with a non-empty [cid], a [size] and a non-empty
    [mime]. *)
Definition entry_wf (k : string) (t : Track) : Prop :=
  relativePath t = k
  /\ truthy (cid t) = true
  /\ (exists sz, size t = Some sz)
  /\ truthy (mime t) = true.

Definition catalog_wf (st : Catalog) : Prop :=
  NoDup (keys st) /\ Forall (fun e => entry_wf (fst e) (snd e)) st.





(** One [POST /api/index] with a connected client: the catalog file it
    leaves, whether [walk] threw or the run went on until nothing was left to
    do. *)
Inductive ran (w : World) (file : FileContent) : FileContent -> Prop :=
| ran_walk_throws : absFiles w = None -> ran w file file
| ran_settled c : reachable w file c -> settled c -> ran w file (disk c).

(** Successive runs, each in the world it finds. *)
Inductive history : list World -> FileContent -> FileContent -> Prop :=
| history_nil file : history [] file file
| history_cons w ws file file1 file2 :
    ran w file file1 -> history ws file1 file2 ->
    history (w :: ws) file file2.

(** ** Names *)

(** The character [c] occurs in [s]. *)
Fixpoint mentions (c : ascii) (s : string) : bool :=
  match s with
  | EmptyString => false
  | String a r => Ascii.eqb a c || mentions c r
  end.

(** [entry.name]. *)
Definition name_of (e : Dirent) : string :=
  match e with
  | Other name => name
  | Directory name _ => name
  end.

Fixpoint distinct (names : list string) : bool :=
  match names with
  | [] => true
  | n :: rest => negb (existsb (String.eqb n) rest) && distinct rest
  end.

(** A tree as a file system shows it: no name holds a separator, and the
    names within one directory differ. *)
Fixpoint tree_ok (e : Dirent) : bool :=
  negb (mentions "/" (name_of e))
  && match e with
     | Other _ => true
     | Directory _ None => true
     | Directory _ (Some entries) =>
         distinct (map name_of entries)
         && (fix all (es : list Dirent) : bool :=
               match es with
               | [] => true
               | e' :: rest => tree_ok e' && all rest
               end) entries
     end.

Definition listing_ok (entries : list Dirent) : bool :=
  distinct (map name_of entries) && forallb tree_ok entries.

(** The first segment of a relative path. *)
Fixpoint head_segment (s : string) : string :=
  match s with
  | EmptyString => EmptyString
  | String a r => if Ascii.eqb a "/" then EmptyString else String a (head_segment r)
  end.

(** Runs counted in steps. *)
Inductive steps_in (w : World) (total : nat) (c0 : Config)
  : nat -> Config -> Prop :=
| steps_in_O : steps_in w total c0 O c0
| steps_in_S n c c' :
    steps_in w total c0 n c -> step w total c c' ->
    steps_in w total c0 (S n) c'.

(** ** A small music directory, for examples *)

Definition demo_tree : list Dirent :=
  [Other "a.mp3"; Other "b.mp3";
   Directory "d" (Some [Other "c.flac"; Other "notes.txt"])].

(** Every file has five bytes, the store fails on the paths [push_fails]
    selects and names the others after their path, and [parseFile] is
    [parse]. *)
Definition demo_world (push_fails : string -> bool)
    (parse : string -> option IAudioMetadata) : World :=
  mkWorld "/music" (Some demo_tree) (fun _ => Some 5) parse
          (fun p => if push_fails p then None else Some (mkCID "Q" ("m" ++ p)))
          (fun _ => Some "audio/mpeg") Completes.

Definition demo_entry (rel c : string) (sz : Z) : Track :=
  mkTrack rel (Some c) (Some sz) None None None None (Some "audio/mpeg").

(** ** Theorems *)

Lemma truthy_spec (v : option string) :
  truthy v = true <-> exists s, v = Some s /\ s <> "".
Proof.
  destruct v as [s|]; simpl.
  - rewrite negb_true_iff. split.
    + intros H. exists s. split; [reflexivity|].
      intros ->. discriminate.
    + intros (s' & [= <-] & Hne). now apply String.eqb_neq.
  - split; [discriminate|]. intros (s & H & _). discriminate.
Qed.

Lemma likely_unchanged_spec (prev : option Track) (sz : Z) :
  likely_unchanged prev sz = true <->
  exists p c, prev = Some p /\ cid p = Some c /\ c <> "" /\ size p = Some sz.
Proof.
  unfold likely_unchanged. split.
  - destruct prev as [p|]; [|discriminate].
    destruct (size p) as [s|] eqn:Hs; [|discriminate].
    rewrite andb_true_iff, Z.eqb_eq, truthy_spec.
    intros (-> & c & Hc & Hne). now exists p, c.
  - intros (p & c & -> & Hc & Hne & ->).
    rewrite Z.eqb_refl. simpl. apply truthy_spec. now exists c.
Qed.

Lemma cid_falsy (p : Track) :
  truthy (cid p) = false <-> cid p = None \/ cid p = Some "".
Proof.
  destruct (cid p) as [c|]; simpl.
  - rewrite negb_false_iff, String.eqb_eq. split.
    + intros ->. now right.
    + intros [H|[= ->]]; [discriminate|reflexivity].
  - split; auto.
Qed.

(** C4. The decision is "skip" exactly when a previous entry exists, its
    [cid] is a non-empty string and its recorded [size] is the current size;
    in every other combination the file is ingested. *)
Theorem needsIngest_false_iff (currentSize : Z) (prev : option Track) :
  (needsIngest currentSize prev = false <->
     exists p c, prev = Some p /\ cid p = Some c /\ c <> ""
                 /\ size p = Some currentSize)
  /\ (needsIngest currentSize prev = true <->
        prev = None
        \/ (exists p, prev = Some p /\ (cid p = None \/ cid p = Some ""))
        \/ (exists p, prev = Some p /\ size p <> Some currentSize)).
Proof.
  unfold needsIngest. rewrite negb_false_iff, negb_true_iff. split.
  - apply likely_unchanged_spec.
  - split.
    + unfold likely_unchanged. destruct prev as [p|]; [|now left].
      intros H. right.
      destruct (size p) as [s|] eqn:Hs.
      * apply andb_false_iff in H. destruct H as [H|H].
        -- right. exists p. split; [reflexivity|].
           apply Z.eqb_neq in H. congruence.
        -- left. exists p. split; [reflexivity|]. now apply cid_falsy.
      * right. exists p. split; [reflexivity|]. congruence.
    + intros H. destruct (likely_unchanged prev currentSize) eqn:E; [|reflexivity].
      apply likely_unchanged_spec in E.
      destruct E as (p & c & -> & Hc & Hne & Hs).
      destruct H as [H|[(p' & [= <-] & [H|H])|(p' & [= <-] & H)]];
        congruence.
Qed.

(** *** The catalog object *)

Lemma get_set_same (k : string) (t : Track) (st : Catalog) :
  get k (set k t st) = Some t.
Proof.
  induction st as [|[k' t'] st IH]; simpl.
  - now rewrite String.eqb_refl.
  - destruct (String.eqb_spec k' k) as [->|Hne]; simpl.
    + now rewrite String.eqb_refl.
    + apply String.eqb_neq in Hne. now rewrite Hne.
Qed.

Lemma get_set_other (k k' : string) (t : Track) (st : Catalog) :
  k' <> k -> get k' (set k t st) = get k' st.
Proof.
  intros Hne. induction st as [|[k0 t0] st IH]; simpl.
  - destruct (String.eqb_spec k k'); [congruence|reflexivity].
  - destruct (String.eqb_spec k0 k) as [->|Hk]; simpl.
    + destruct (String.eqb_spec k k'); [congruence|reflexivity].
    + now rewrite IH.
Qed.

Lemma get_in_keys (k : string) (st : Catalog) :
  In k (keys st) <-> exists t, get k st = Some t.
Proof.
  unfold keys. induction st as [|[k0 t0] st IH]; simpl.
  - split; [tauto|]. intros [t H]. discriminate.
  - destruct (String.eqb_spec k0 k) as [->|Hk].
    + split; [eauto|auto].
    + rewrite <- IH. tauto.
Qed.

(** *** The streaming route *)

Lemma has_cid_true (requested : string) (t : Track) :
  has_cid requested t = true <-> cid t = Some requested.
Proof.
  unfold has_cid. destruct (cid t) as [c|].
  - rewrite String.eqb_eq. split; congruence.
  - split; discriminate.
Qed.

Lemma find_by_cid_first (requested : string) (st : Catalog) (t : Track) :
  find_by_cid requested st = Some t <->
  exists before k after,
    st = before ++ (k, t) :: after
    /\ cid t = Some requested
    /\ Forall (fun e => cid (snd e) <> Some requested) before.
Proof.
  unfold find_by_cid, values.
  induction st as [|[k0 t0] st IH]; simpl.
  - split; [discriminate|]. intros (b & k & a & H & _). now destruct b.
  - destruct (has_cid requested t0) eqn:E.
    + apply has_cid_true in E. split.
      * intros [= <-]. exists [], k0, st. auto.
      * intros ([|[k1 t1] b] & k & a & H & Hc & Hall); simpl in H.
        -- congruence.
        -- injection H as -> -> ->. inversion Hall; subst. simpl in *. congruence.
    + rewrite IH. split.
      * intros (b & k & a & -> & Hc & Hall). exists ((k0, t0) :: b), k, a.
        repeat split; auto. constructor; auto. simpl.
        intros H. apply has_cid_true in H. congruence.
      * intros ([|[k1 t1] b] & k & a & H & Hc & Hall); simpl in H.
        -- injection H as -> -> ->. apply has_cid_true in Hc. congruence.
        -- injection H as -> -> ->. inversion Hall; subst. eauto 6.
Qed.

Lemma find_by_cid_none (requested : string) (st : Catalog) :
  find_by_cid requested st = None <->
  Forall (fun e => cid (snd e) <> Some requested) st.
Proof.
  unfold find_by_cid, values.
  induction st as [|[k0 t0] st IH]; simpl.
  - split; auto.
  - destruct (has_cid requested t0) eqn:E.
    + apply has_cid_true in E. split; [discriminate|].
      intros H. inversion H; subst. simpl in *. congruence.
    + rewrite IH. split.
      * intros H. constructor; auto. simpl.
        intros H'. apply has_cid_true in H'. congruence.
      * intros H. now inversion H.
Qed.

(** The header by cases of the first match: its [mime] when that is a
    non-empty string, the default otherwise. *)
Lemma content_type_first_match (st : Catalog) (requested : string) :
  (forall before k t after,
      st = before ++ (k, t) :: after ->
      cid t = Some requested ->
      Forall (fun e => cid (snd e) <> Some requested) before ->
      content_type st requested =
        match mime t with
        | Some m => if (m =? "")%string then "audio/mpeg" else m
        | None => "audio/mpeg"
        end)
  /\ (Forall (fun e => cid (snd e) <> Some requested) st ->
      content_type st requested = "audio/mpeg").
Proof.
  split.
  - intros before k t after Hst Hc Hall.
    assert (H : find_by_cid requested st = Some t).
    { apply find_by_cid_first. eauto 6. }
    unfold content_type. rewrite H. reflexivity.
  - intros Hall. apply find_by_cid_none in Hall.
    unfold content_type. now rewrite Hall.
Qed.

(** C8. On a catalog as the data model has it, where an entry that has a
    [cid] has a [mime], the type served is the [mime] of the first entry, in
    the catalog's enumeration order, whose [cid] is the requested identifier,
    whether or not other entries carry the same identifier; when no entry
    matches it is [audio/mpeg]. *)
Theorem content_type_serves_first_match (st : Catalog) (requested : string) :
  ingested_have_mime st ->
  (forall before k t after,
      st = before ++ (k, t) :: after ->
      cid t = Some requested ->
      Forall (fun e => cid (snd e) <> Some requested) before ->
      mime t = Some (content_type st requested))
  /\ (Forall (fun e => cid (snd e) <> Some requested) st ->
      content_type st requested = "audio/mpeg").
Proof.
  intros Hwf. destruct (content_type_first_match st requested) as [Hfirst Hnone].
  split; [|exact Hnone].
  intros before k t after Hst Hc Hall.
  rewrite (Hfirst before k t after Hst Hc Hall).
  unfold ingested_have_mime in Hwf. rewrite Forall_forall in Hwf.
  assert (Hin : In (k, t) st) by (rewrite Hst; apply in_or_app; right; now left).
  assert (Hm : truthy (mime t) = true).
  { apply (Hwf (k, t) Hin). simpl. congruence. }
  apply truthy_spec in Hm. destruct Hm as (m & -> & Hne).
  apply String.eqb_neq in Hne. now rewrite Hne.
Qed.

Lemma content_type_serves_first_match_witness :
  let pending := mkTrack "new.ogg" None None None None None None None in
  let a := mkTrack "a.mp3" (Some "QmSame") (Some 7) None None None None
                   (Some "audio/mpeg") in
  let b := mkTrack "copy.flac" (Some "QmSame") (Some 7) None None None None
                   (Some "audio/x-flac") in
  let st := [("new.ogg", pending); ("a.mp3", a); ("copy.flac", b)] in
  content_type st "QmSame" = "audio/mpeg"
  /\ mime a = Some (content_type st "QmSame")
  /\ content_type st "QmOther" = "audio/mpeg".
Proof.
  intros pending a b st. split; [reflexivity|].
  assert (Hwf : ingested_have_mime st).
  { repeat constructor; simpl; congruence. }
  destruct (content_type_serves_first_match "QmSame" Hwf) as [Hfirst _].
  destruct (content_type_serves_first_match "QmOther" Hwf) as [_ Hnone].
  split.
  - apply (Hfirst [("new.ogg", pending)] "a.mp3" a [("copy.flac", b)]);
      [reflexivity|reflexivity|].
    constructor; [simpl; discriminate|constructor].
  - apply Hnone. repeat constructor; simpl; discriminate.
Defined.

(** *** The catalog file *)

(** C2, as the claim states it, at a save that is interrupted after
    [writeFileSync] has opened the file: the catalog loaded afterwards is
    neither the prior one nor the new one. *)
Lemma saveState_interrupted_loses_prior :
  let a := mkTrack "a.mp3" (Some "QmA") (Some 7) None None None None
                   (Some "audio/mpeg") in
  let b := mkTrack "b.mp3" (Some "QmB") (Some 9) None None None None
                   (Some "audio/mpeg") in
  let prior := [("a.mp3", a)] in
  let new := [("a.mp3", a); ("b.mp3", b)] in
  let after :=
    loadState (fst (saveState MidWrite (Json prior) (Object new))) in
  after <> Object prior /\ after <> Object new /\ after = Object [].
Proof.
  simpl. repeat split; discriminate.
Qed.

(** C2, amended. [saveState] rewrites the catalog file in place. A save that
    runs to its end makes the next load return the new catalog; one that
    stops before the file is opened leaves what the file held; one that stops
    after the file was opened and before its last byte leaves a text that
    does not parse, and the next load returns the empty catalog. The same
    holds of a value that is no plain object, except that of an array only the
    elements come back. *)
Theorem saveState_then_loadState (i : Interruption) (file : FileContent)
    (new : Catalog) (v : StateValue) :
  loadState (fst (saveState i file (Object new))) =
    match i with
    | Completes => Object new
    | BeforeOpen => loadState file
    | MidWrite => Object []
    end
  /\ (snd (saveState i file (Object new)) = true <-> i = Completes)
  /\ loadState (fst (saveState i file v)) =
       match i with
       | Completes =>
           match v with
           | Array elements _ => Array elements []
           | _ => v
           end
       | BeforeOpen => loadState file
       | MidWrite => Object []
       end
  /\ (snd (saveState i file v) = true <-> i = Completes).
Proof.
  destruct i; simpl; repeat split; try congruence; now destruct v.
Qed.

(** *** The walker *)

Section DirentInduction.
Variable P : Dirent -> Prop.
Hypothesis P_other : forall name, P (Other name).
Hypothesis P_unreadable : forall name, P (Directory name None).
Hypothesis P_directory :
  forall name entries, Forall P entries -> P (Directory name (Some entries)).

Lemma Dirent_nested_ind : forall e, P e.
Proof.
  fix IH 1. intros [name|name [entries|]].
  - apply P_other.
  - apply P_directory.
    induction entries as [|e' rest IHrest]; constructor;
      [apply IH | exact IHrest].
  - apply P_unreadable.
Qed.
End DirentInduction.

Lemma walk_entry_directory (dir name : string) (es : list Dirent) :
  walk_entry dir (Directory name (Some es)) = walk_loop (path_join dir name) es.
Proof.
  simpl. induction es as [|e rest IH]; simpl; [reflexivity|].
  destruct (walk_entry (path_join dir name) e); [|reflexivity].
  now rewrite IH.
Qed.

Lemma files_below_directory (dir name : string) (es : list Dirent) :
  files_below dir (Directory name (Some es)) = files_under (path_join dir name) es.
Proof.
  unfold files_under. simpl. induction es as [|e rest IH]; simpl; [reflexivity|].
  now rewrite IH.
Qed.

Lemma readable_directory (name : string) (es : list Dirent) :
  readable (Directory name (Some es)) = forallb readable es.
Proof.
  simpl. induction es as [|e rest IH]; simpl; [reflexivity|]. now rewrite IH.
Qed.

Lemma walk_loop_spec (dir : string) (es : list Dirent) :
  Forall (fun e => forall d,
              walk_entry d e = if readable e then Some (files_below d e) else None) es ->
  walk_loop dir es =
    if forallb readable es then Some (files_under dir es) else None.
Proof.
  unfold files_under.
  induction 1 as [|e rest He _ IH]; simpl; [reflexivity|].
  rewrite He, IH.
  destruct (readable e); simpl; [|reflexivity].
  destruct (forallb readable rest); reflexivity.
Qed.

Lemma walk_entry_spec (e : Dirent) (dir : string) :
  walk_entry dir e = if readable e then Some (files_below dir e) else None.
Proof.
  revert dir. induction e as [name|name|name es IH] using Dirent_nested_ind;
    intros dir; try reflexivity.
  rewrite walk_entry_directory, files_below_directory, readable_directory.
  now apply walk_loop_spec.
Qed.

Lemma walk_loop_all (dir : string) (es : list Dirent) :
  walk_loop dir es =
    if forallb readable es then Some (files_under dir es) else None.
Proof.
  apply walk_loop_spec. apply Forall_forall. intros e _ d.
  apply walk_entry_spec.
Qed.

(** C7, as the claim states it, at a music directory that holds one file and
    one directory that cannot be read: the walk throws and the file is not
    enumerated. *)
Lemma walk_aborts_on_unreadable_directory :
  let es := [Other "a.mp3"; Directory "locked" None] in
  files_under "/music" es = ["/music/a.mp3"]
  /\ walk "/music" (Some es) = None.
Proof.
  split; reflexivity.
Qed.

(** C7, amended. When every directory of the tree can be read, the walk
    returns every non-directory entry, at any depth, in discovery order. When
    reading any directory of the tree fails, the root or a nested one, the
    whole walk throws: nothing is skipped and nothing is returned. *)
Theorem walk_all_or_nothing (dir : string) (listing : option (list Dirent)) :
  walk dir listing =
    match listing with
    | Some entries =>
        if forallb readable entries then Some (files_under dir entries)
        else None
    | None => None
    end.
Proof.
  destruct listing as [es|]; simpl.
  - apply walk_loop_all.
  - reflexivity.
Qed.

(** *** Runs of [scanAndIndex]: induction over the steps *)

Lemma reachable_ind (w : World) (file : FileContent) (P : Config -> Prop) :
  P (init (candidates w) file) ->
  (forall c c', reachable w file c -> P c -> step w (total_of w) c c' -> P c') ->
  forall c, reachable w file c -> P c.
Proof.
  intros Hinit Hstep c [Hw Hc].
  induction Hc as [|c2 c3 H12 IH H23]; [assumption|].
  apply Hstep with c2; auto. now split.
Qed.

Ltac unfold_step :=
  unfold start_task, meta_done, add_done, finish, saveState, thrown in *;
  simpl in *.

Ltac step_cases H :=
  inversion H; subst; clear H; unfold_step;
  try match goal with
      | |- context [match save_interruption ?w with _ => _ end] =>
          destruct (save_interruption w) eqn:?; simpl in *
      end;
  repeat match goal with
         | |- context [match ?x with _ => _ end] => destruct x eqn:?; simpl in *
         end.

Lemma pool_bound (w : World) (file : FileContent) (c : Config) :
  reachable w file c -> (length (running c) <= concurrency)%nat.
Proof.
  intros H. induction H as [|c c' _ IH Hstep] using reachable_ind.
  - unfold concurrency. simpl. lia.
  - step_cases Hstep; unfold concurrency in *;
      repeat match goal with
             | E : running _ = _ |- _ => rewrite E in *; clear E
             end;
      rewrite ?length_app in *; simpl in *; lia.
Qed.

(** C9. In every configuration of every run, whatever the number of
    candidates and whatever fails, at most two calls to [ipfs.add] have not
    settled: each is made by a task the queue has started, a task awaits one
    call at a time, and the queue, created with concurrency 2, starts a task
    only while fewer than two are running. *)
Theorem at_most_two_pushes_in_flight (w : World) (file : FileContent)
    (c : Config) :
  reachable w file c -> (in_flight c <= 2)%nat.
Proof.
  intros H. apply pool_bound in H. unfold in_flight, concurrency in *.
  pose proof (filter_length_le
                (fun t => match task_phase t with
                          | AwaitAdd _ => true
                          | AwaitMeta => false
                          end) (running c)).
  lia.
Qed.

(** *** The promise of the run and the catalog file *)

(** A run never changes the kind of value it loaded. *)
Lemma kind_inv (w : World) (file : FileContent) (c : Config) :
  reachable w file c -> kind c = kind_of (loadState file).
Proof.
  intros H. induction H as [|c c' _ IH Hstep] using reachable_ind.
  - reflexivity.
  - step_cases Hstep; assumption.
Qed.

(** A run is either before its save, with the catalog file as it found it,
    or after it, with nothing left to run. *)
Lemma save_once (w : World) (file : FileContent) (c : Config) :
  reachable w file c ->
  (disk c = file
   /\ ((outcome c = Pending /\ failed c = false)
       \/ (outcome c = Rejected /\ failed c = true)))
  \/ (pending c = [] /\ running c = [] /\ failed c = false
      /\ ((outcome c = Returned (total_of w) (added c)
           /\ disk c = stringify (value (kind c) (state c)) /\ save_interruption w = Completes)
          \/ (outcome c = Rejected /\ save_interruption w <> Completes))).
Proof.
  intros H. induction H as [|c c' _ IH Hstep] using reachable_ind.
  - left. simpl. auto.
  - destruct IH as [(Hd & [(Ho & Hf)|(Ho & Hf)])
                   |(Hp & Hr & Hf & [(Ho & _)|(Ho & _)])];
      step_cases Hstep;
      try congruence;
      try (exfalso;
           match goal with
           | E : running ?c = [], E' : running ?c = ?l ++ _ :: _ |- _ =>
               rewrite E in E'; destruct l; discriminate
           end);
      try (rewrite Ho; simpl);
      try solve [intuition congruence].
Qed.

Lemma outcome_inv (w : World) (file : FileContent) (c : Config) :
  reachable w file c ->
  (outcome c = Pending -> disk c = file /\ failed c = false)
  /\ (failed c = true -> outcome c = Rejected /\ disk c = file)
  /\ (forall tot a, outcome c = Returned tot a ->
        failed c = false /\ tot = total_of w /\ a = added c
        /\ disk c = stringify (value (kind c) (state c)) /\ pending c = [] /\ running c = []
        /\ save_interruption w = Completes)
  /\ (outcome c = Rejected ->
        failed c = true \/ save_interruption w <> Completes).
Proof.
  intros H. apply save_once in H.
  destruct H as [(Hd & [(Ho & Hf)|(Ho & Hf)])
                |(Hp & Hr & Hf & [(Ho & Hd & Hs)|(Ho & Hs)])];
    rewrite Ho; repeat split; intros; try congruence; try tauto.
Qed.

(** What the file holds in any configuration: what the run found, what a
    completed save wrote, or the remains of a save cut short in its write. *)
Lemma disk_inv (w : World) (file : FileContent) (c : Config) :
  reachable w file c ->
  disk c = file
  \/ (disk c = stringify (value (kind c) (state c))
      /\ save_interruption w = Completes
      /\ pending c = [] /\ running c = [] /\ outcome c <> Pending)
  \/ (disk c = Torn /\ save_interruption w = MidWrite /\ outcome c <> Pending).
Proof.
  intros H. induction H as [|c c' _ IH Hstep] using reachable_ind.
  - now left.
  - destruct IH as [Hd|[(Hd & Hs & Hp & Hr & Ho)|(Hd & Hs & Ho)]].
    + step_cases Hstep; auto.
      * right. left. repeat split; auto. discriminate.
      * right. right. repeat split; auto. discriminate.
    + exfalso. inversion Hstep; subst; clear Hstep; try congruence.
      * rewrite Hr in H. now destruct before.
      * rewrite Hr in H. now destruct before.
    + right. right.
      step_cases Hstep; try congruence;
        destruct (outcome c); simpl; repeat split; congruence.
Qed.

Lemma loadState_stringify (k : Kind) (st : Catalog) :
  kind_of (loadState (stringify (value k st))) = k
  /\ props (loadState (stringify (value k st)))
     = match k with
       | IsObject => st
       | _ => []
       end.
Proof. destruct k; split; reflexivity. Qed.

Lemma props_not_object (file : FileContent) :
  kind_of (loadState file) <> IsObject -> props (loadState file) = [].
Proof. destruct file; simpl; congruence. Qed.

(** *** The queue, the tasks and the keys they assign *)

Lemma Forall_middle {A} (P : A -> Prop) (before after : list A) (x : A) :
  Forall P (before ++ x :: after) <-> Forall P before /\ P x /\ Forall P after.
Proof.
  rewrite Forall_app, Forall_cons_iff. tauto.
Qed.

Lemma queue_inv (w : World) (file : FileContent) (c : Config) :
  reachable w file c ->
  incl (pending c) (candidates w) /\ Forall (task_wf w) (running c).
Proof.
  intros H. induction H as [|c c' _ [IHp IHr] Hstep] using reachable_ind.
  - simpl. split; [apply incl_refl|constructor].
  - inversion Hstep; subst; clear Hstep.
    + rewrite H in IHp.
      assert (Hrest : incl rest (candidates w)).
      { intros x Hx. apply IHp. now right. }
      unfold start_task, thrown. destruct (statSync w absPath) as [sz|] eqn:Hs; simpl; auto.
      destruct (indexable (kind c)); simpl; auto.
      destruct (likely_unchanged _ sz); simpl; auto.
      split; auto. apply Forall_app. split; auto.
      constructor; [|constructor]. repeat split; simpl; auto.
      apply IHp. now left.
    + rewrite H in IHr. apply Forall_middle in IHr.
      destruct IHr as (Hb & Ht & Ha).
      unfold meta_done; simpl. split; auto.
      apply Forall_middle. auto.
    + rewrite H in IHr. apply Forall_middle in IHr.
      destruct IHr as (Hb & Ht & Ha).
      unfold add_done, thrown.
      destruct (ipfs_add w (task_path t));
        [destruct (assignable (kind c))|]; simpl;
        (split; [assumption|apply Forall_app; auto]).
    + unfold finish. destruct (saveState _ _ _). simpl. auto.
Qed.

Lemma written_inv (w : World) (file : FileContent) (c : Config) :
  reachable w file c ->
  added c = length (written c)
  /\ (forall k, In k (written c) ->
        exists absPath sz res meta,
          In absPath (candidates w) /\ k = rel_of w absPath
          /\ statSync w absPath = Some sz /\ ipfs_add w absPath = Some res
          /\ get k (state c)
             = Some (new_entry k (CID_toString res) sz meta
                               (mimeType w absPath)))
  /\ (forall k, ~ In k (written c) -> get k (state c) = get k (props (loadState file))).
Proof.
  intros H. induction H as [|c c' Hc (IHa & IHw & IHu) Hstep] using reachable_ind.
  - simpl. repeat split; auto. intros k [].
  - apply queue_inv in Hc. destruct Hc as [_ Hrun].
    inversion Hstep; subst; clear Hstep.
    + unfold start_task, thrown. destruct (statSync w absPath) as [sz|]; simpl; auto.
      destruct (indexable (kind c)); simpl; auto.
      destruct (likely_unchanged _ sz); simpl; auto.
    + unfold meta_done; simpl. auto.
    + rewrite H in Hrun. apply Forall_middle in Hrun.
      destruct Hrun as (_ & (Hin & Hrel & Hstat) & _).
      unfold add_done, thrown. destruct (ipfs_add w (task_path t)) as [c'|] eqn:Hadd;
        simpl; auto.
      destruct (assignable (kind c)); simpl; auto.
      split; [congruence|]. split.
      * intros k [<-|Hk].
        -- exists (task_path t), (task_size t), c', meta.
           rewrite get_set_same. auto.
        -- destruct (string_dec k (task_rel t)) as [->|Hne].
           ++ exists (task_path t), (task_size t), c', meta.
              rewrite get_set_same. auto.
           ++ rewrite get_set_other by assumption. auto.
      * intros k Hk. rewrite get_set_other; [apply IHu|]; intuition.
    + unfold finish. destruct (saveState _ _ _). simpl. auto.
Qed.

(** *** Candidates lie below the music directory *)

Lemma append_assoc (a b c : string) :
  ((a ++ b) ++ c = a ++ (b ++ c))%string.
Proof.
  induction a as [|x a IH]; simpl; [reflexivity|]. now rewrite IH.
Qed.

Lemma strip_prefix_app (pre s : string) :
  strip_prefix pre (pre ++ s)%string = Some s.
Proof.
  induction pre as [|a pre IH]; simpl; [reflexivity|].
  now rewrite Ascii.eqb_refl.
Qed.

Lemma relative_path_join (dir r : string) :
  relative dir (path_join dir r) = r.
Proof.
  unfold relative, path_join.
  now rewrite <- append_assoc, strip_prefix_app.
Qed.

Lemma below_path_join (dir name p : string) :
  below (path_join dir name) p -> below dir p.
Proof.
  intros [r ->]. exists (name ++ "/" ++ r)%string.
  unfold path_join. now rewrite !append_assoc.
Qed.

Lemma files_below_below (e : Dirent) (dir : string) :
  Forall (below dir) (files_below dir e).
Proof.
  revert dir. induction e as [name|name|name es IH] using Dirent_nested_ind;
    intros dir.
  - constructor; [|constructor]. now exists name.
  - constructor.
  - rewrite files_below_directory. unfold files_under.
    induction IH as [|e rest He _ IHrest]; simpl; [constructor|].
    apply Forall_app. split; [|assumption].
    eapply Forall_impl; [|apply He]. intros p. apply below_path_join.
Qed.

Lemma candidates_below (w : World) :
  Forall (below (MUSIC_DIR w)) (candidates w).
Proof.
  unfold candidates, absFiles, walk.
  destruct (music w) as [es|]; simpl; [|constructor].
  rewrite walk_loop_all.
  destruct (forallb readable es); simpl; [|constructor].
  apply Forall_forall. intros p Hp. apply filter_In in Hp. destruct Hp as [Hp _].
  unfold files_under in Hp. apply in_flat_map in Hp. destruct Hp as (e & _ & Hp).
  pose proof (files_below_below e (MUSIC_DIR w)) as H.
  rewrite Forall_forall in H. auto.
Qed.

Lemma rel_of_inj (w : World) (p q : string) :
  In p (candidates w) -> In q (candidates w) ->
  rel_of w p = rel_of w q -> p = q.
Proof.
  pose proof (candidates_below w) as H. rewrite Forall_forall in H.
  intros Hp Hq. destruct (H _ Hp) as [r ->]. destruct (H _ Hq) as [r' ->].
  unfold rel_of. rewrite !relative_path_join. now intros ->.
Qed.

(** *** Every candidate is waiting, running, or done with *)

Lemma sched_inv (w : World) (file : FileContent) (c : Config) :
  reachable w file c ->
  forall p, In p (candidates w) ->
    In p (pending c)
    \/ (exists t, In t (running c) /\ task_path t = p)
    \/ failed c = true
    \/ completed w file c p.
Proof.
  intros H. induction H as [|c c' Hc IH Hstep] using reachable_ind.
  - simpl. auto.
  - pose proof (queue_inv Hc) as [_ Hrun].
    pose proof (written_inv Hc) as (_ & _ & Hun).
    intros p Hp. specialize (IH p Hp).
    inversion Hstep; subst; clear Hstep.
    + unfold start_task, thrown.
      assert (Hcase : p = absPath \/ In p rest
                      \/ (exists t, In t (running c) /\ task_path t = p)
                      \/ failed c = true \/ completed w file c p).
      { rewrite H in IH. simpl in IH. intuition. }
      clear IH.
      destruct (statSync w absPath) as [sz|] eqn:Hs; simpl; [|tauto].
      destruct (indexable (kind c)); simpl; [|tauto].
      destruct (likely_unchanged _ sz) eqn:Hlu; simpl.
      * destruct Hcase as [->|Hcase]; [|tauto].
        right. right. right. exists sz. split; [assumption|].
        destruct (in_dec string_dec (rel_of w absPath) (written c)) as [Hin|Hin];
          [now right|left].
        rewrite <- (Hun _ Hin). exact Hlu.
      * destruct Hcase as [->|[Hcase|[(t & Ht & Htp)|Hcase]]]; auto.
        -- right. left. eexists. split; [apply in_or_app; right; now left|].
           reflexivity.
        -- right. left. exists t. split; [apply in_or_app; now left|assumption].
    + unfold meta_done; simpl.
      destruct IH as [IH|[(t' & Ht' & Htp)|IH]]; auto.
      right. left. rewrite H in Ht'. apply in_app_or in Ht'.
      destruct Ht' as [Ht'|[<-|Ht']].
      * exists t'. split; [apply in_or_app; now left|assumption].
      * eexists. split; [apply in_or_app; right; now left|]. assumption.
      * exists t'. split; [apply in_or_app; right; now right|assumption].
    + rewrite H in Hrun. apply Forall_middle in Hrun.
      destruct Hrun as (_ & (Hin & Hrel & Hstat) & _).
      unfold add_done, thrown.
      destruct (ipfs_add w (task_path t)) as [c'|] eqn:Hadd; simpl; [|tauto].
      destruct (assignable (kind c)); simpl; [|tauto].
      destruct IH as [IH|[(t' & Ht' & Htp)|[IH|(sz & Hsz & IH)]]]; auto.
      * rewrite H in Ht'. apply in_app_or in Ht'.
        destruct Ht' as [Ht'|[<-|Ht']].
        -- right. left. exists t'. split; [apply in_or_app; now left|assumption].
        -- right. right. right. exists (task_size t). subst p.
           split; [assumption|]. right. left. assumption.
        -- right. left. exists t'. split; [apply in_or_app; now right|assumption].
      * right. right. right. exists sz. split; [assumption|].
        destruct IH; [now left|right; now right].
    + unfold finish. destruct (saveState _ _ _). simpl. exact IH.
Qed.

(** *** Every run ends, and the schedule above is one of them *)

Lemma reject_weight (o : Outcome) :
  (match reject o with Pending => 1 | _ => 0 end
   <= match o with Pending => 1 | _ => 0 end)%nat.
Proof. destruct o; simpl; lia. Qed.

Lemma step_weight (w : World) (total : nat) (c c' : Config) :
  step w total c c' -> (weight c' < weight c)%nat.
Proof.
  intros Hstep. unfold weight.
  inversion Hstep; subst; clear Hstep.
  - rewrite H. unfold start_task, thrown.
    pose proof (reject_weight (outcome c)).
    destruct (statSync w absPath) as [sz|]; simpl; [|lia].
    destruct (indexable (kind c)); simpl; [|lia].
    destruct (likely_unchanged _ sz); simpl; [lia|].
    rewrite map_app, list_sum_app. simpl. lia.
  - assert (Ht : phase_weight t = 2%nat)
      by (unfold phase_weight; now rewrite H0).
    rewrite H. unfold meta_done; simpl.
    rewrite !map_app, !list_sum_app. simpl. rewrite Ht.
    change (phase_weight _) with 1%nat. lia.
  - assert (Ht : phase_weight t = 1%nat)
      by (unfold phase_weight; now rewrite H0).
    rewrite H. unfold add_done, thrown.
    pose proof (reject_weight (outcome c)).
    destruct (ipfs_add w (task_path t)); [destruct (assignable (kind c))|];
      simpl; rewrite !map_app, !list_sum_app; simpl; rewrite Ht; lia.
  - rewrite H, H0, H1. unfold finish.
    destruct (saveState _ _ _) as [f [|]]; simpl; rewrite ?H, ?H0; simpl; lia.
Qed.

Lemma next_step (w : World) (total : nat) (c c' : Config) :
  next w total c = Some c' -> step w total c c'.
Proof.
  unfold next.
  destruct (pending c) as [|p rest] eqn:Hp; destruct (running c) as [|t after] eqn:Hr.
  - destruct (outcome c) eqn:Ho; try discriminate.
    intros [= <-]. now constructor.
  - intros [= <-]. destruct (task_phase t) as [|meta] eqn:Hph.
    + now apply step_meta.
    + now apply step_add.
  - simpl. intros [= <-]. apply step_start; [assumption|].
    rewrite Hr. unfold concurrency. simpl. lia.
  - destruct (length (t :: after) <? concurrency)%nat eqn:Hlen.
    + intros [= <-]. apply step_start; [assumption|].
      rewrite Hr. now apply Nat.ltb_lt.
    + intros [= <-]. destruct (task_phase t) as [|meta] eqn:Hph.
      * now apply step_meta.
      * now apply step_add.
Qed.

Lemma next_none (w : World) (total : nat) (c : Config) :
  next w total c = None -> settled c.
Proof.
  unfold next, settled.
  destruct (pending c) as [|p rest]; destruct (running c) as [|t after];
    simpl; try discriminate.
  - destruct (outcome c); try discriminate; intros _;
      (split; [reflexivity|split; [reflexivity|discriminate]]).
  - destruct (S (length after) <? concurrency)%nat; discriminate.
Qed.

Lemma run_steps (w : World) (total fuel : nat) (c : Config) :
  steps w total c (run w total fuel c).
Proof.
  assert (H : forall c0, steps w total c0 c -> steps w total c0 (run w total fuel c)).
  { revert c. induction fuel as [|fuel IH]; intros c c0 Hc; simpl; [assumption|].
    destruct (next w total c) as [c'|] eqn:Hn; [|assumption].
    apply IH. econstructor; [eassumption|]. now apply next_step. }
  apply H. constructor.
Qed.

Lemma run_settled (w : World) (total fuel : nat) (c : Config) :
  (weight c <= fuel)%nat -> settled (run w total fuel c).
Proof.
  revert c. induction fuel as [|fuel IH]; intros c Hw; simpl.
  - unfold weight, settled in *.
    destruct (pending c); simpl in *; [|lia].
    destruct (running c) as [|t r]; simpl in *.
    + destruct (outcome c); try lia;
        (split; [reflexivity|split; [reflexivity|discriminate]]).
    + unfold phase_weight in Hw. destruct (task_phase t); lia.
  - destruct (next w total c) as [c'|] eqn:Hn.
    + apply IH. apply next_step, step_weight in Hn. lia.
    + now apply next_none in Hn.
Qed.

Lemma scanAndIndex_run_reachable (w : World) (file : FileContent) :
  absFiles w <> None ->
  reachable w file (scanAndIndex_run w file)
  /\ settled (scanAndIndex_run w file).
Proof.
  intros Hw. unfold scanAndIndex_run. split.
  - split; [assumption|apply run_steps].
  - apply run_settled. lia.
Qed.

(** *** Keys *)

(** C10. Every key a run has assigned in [state] is the path of a candidate
    relative to the music directory and holds an entry whose [relativePath]
    is that key; every other key holds what the loaded catalog held, so no
    entry is ever written under a key other than its own [relativePath]. *)
Theorem written_under_own_key (w : World) (file : FileContent) (c : Config) :
  reachable w file c ->
  (forall k, In k (written c) ->
     (exists absPath, In absPath (candidates w)
                      /\ k = relative (MUSIC_DIR w) absPath)
     /\ exists t, get k (state c) = Some t /\ relativePath t = k)
  /\ (forall k t, get k (state c) = Some t ->
        relativePath t = k \/ get k (props (loadState file)) = Some t).
Proof.
  intros H. destruct (written_inv H) as (_ & Hw & Hu). split.
  - intros k Hk. destruct (Hw k Hk) as (p & sz & c' & meta & Hp & -> & _ & _ & Hg).
    split; [now exists p|]. eexists. split; [exact Hg|reflexivity].
  - intros k t Hg.
    destruct (in_dec string_dec k (written c)) as [Hk|Hk].
    + left. destruct (Hw k Hk) as (p & sz & c' & meta & _ & _ & _ & _ & Hg').
      rewrite Hg in Hg'. now injection Hg' as ->.
    + right. now rewrite <- (Hu k Hk).
Qed.

Lemma written_under_own_key_witness :
  let w := demo_world (fun _ => false) (fun _ => None) in
  let c := scanAndIndex_run w NoFile in
  written c = ["d/c.flac"; "b.mp3"; "a.mp3"]
  /\ forall k t, get k (state c) = Some t ->
       relativePath t = k \/ get k (props (loadState NoFile)) = Some t.
Proof.
  split; [reflexivity|].
  apply (written_under_own_key
           (w := demo_world (fun _ => false) (fun _ => None)) (file := NoFile)).
  apply scanAndIndex_run_reachable. discriminate.
Defined.

Lemma persisted_props (w : World) (file : FileContent) (c : Config) :
  reachable w file c ->
  save_interruption w <> MidWrite ->
  kind_of (loadState (disk c)) = kind_of (loadState file)
  /\ (props (loadState (disk c)) = props (loadState file)
      \/ (props (loadState (disk c)) = state c /\ kind c = IsObject)).
Proof.
  intros H Hsave. pose proof (kind_inv H) as Hk.
  destruct (disk_inv H) as [Hd|[(Hd & _)|(_ & Hmid & _)]].
  - rewrite Hd. auto.
  - rewrite Hd. destruct (loadState_stringify (kind c) (state c)) as [-> ->].
    split; [assumption|].
    destruct (kind c) eqn:E; [right; auto|left..];
      symmetry; apply props_not_object; rewrite <- Hk; discriminate.
  - contradiction.
Qed.

(** C5, as the claim states it, at a run whose save is cut short in the
    middle of its write: the entry of a file that is no longer on disk was in
    the catalog the run loaded and is not in the one loaded from the file the
    run leaves. *)
Lemma interrupted_save_drops_entries :
  let w := mkWorld "/music" (Some demo_tree) (fun _ => Some 5) (fun _ => None)
                   (fun p => Some (mkCID "Q" ("m" ++ p))) (fun _ => None)
                   MidWrite in
  let file := Json [("gone.mp3", demo_entry "gone.mp3" "QmGone" 3)] in
  scanAndIndex w file = (Rejected, Torn)
  /\ get "gone.mp3" (props (loadState file))
     = Some (demo_entry "gone.mp3" "QmGone" 3)
  /\ get "gone.mp3" (props (loadState (snd (scanAndIndex w file)))) = None.
Proof.
  vm_compute. repeat split.
Qed.

(** C5, amended. Whenever the save of a run is not cut short in the middle
    of its write, the catalog file holds, in every configuration of the run,
    before the save and after it, whether the run returns or is rejected,
    every key of the catalog the run loaded, and under every key the run did
    not assign the loaded entry unchanged; the keys it assigns are keys of
    candidates, so the entry of a file that is no longer on disk stays as it
    was. The file also keeps the kind of value it held. *)
Theorem snapshot_entries_survive (w : World) (file : FileContent) (c : Config) :
  reachable w file c ->
  save_interruption w <> MidWrite ->
  let persisted := props (loadState (disk c)) in
  kind_of (loadState (disk c)) = kind_of (loadState file)
  /\ (forall k, In k (keys (props (loadState file))) -> In k (keys persisted))
  /\ (forall k, ~ In k (written c) ->
        get k persisted = get k (props (loadState file)))
  /\ (forall k, (forall absPath, In absPath (candidates w) ->
                                 relative (MUSIC_DIR w) absPath <> k) ->
        get k persisted = get k (props (loadState file))).
Proof.
  intros H Hsave persisted. subst persisted.
  destruct (persisted_props H Hsave) as [Hkind Hprops].
  split; [exact Hkind|].
  destruct Hprops as [->|[-> _]]; [auto|].
  destruct (written_inv H) as (_ & Hw & Hu).
  assert (Hcand : forall k, (forall absPath, In absPath (candidates w) ->
                               relative (MUSIC_DIR w) absPath <> k) ->
                            ~ In k (written c)).
  { intros k Hk Hin. destruct (Hw k Hin) as (p & _ & _ & _ & Hp & -> & _).
    now apply (Hk p). }
  repeat split; auto.
  intros k Hk. apply get_in_keys.
  destruct (in_dec string_dec k (written c)) as [Hin|Hin].
  - destruct (Hw k Hin) as (p & sz & c' & meta & _ & _ & _ & _ & Hg). eauto.
  - rewrite (Hu k Hin). now apply get_in_keys.
Qed.

Lemma snapshot_entries_survive_witness :
  let w := demo_world (String.eqb "/music/b.mp3") (fun _ => None) in
  let file := Json [("gone.mp3", demo_entry "gone.mp3" "QmGone" 3);
                    ("a.mp3", demo_entry "a.mp3" "QmOld" 4)] in
  let c := scanAndIndex_run w file in
  let persisted := props (loadState (disk c)) in
  outcome c = Rejected
  /\ written c = ["d/c.flac"; "a.mp3"]
  /\ (forall k, In k (keys (props (loadState file))) -> In k (keys persisted))
  /\ get "gone.mp3" persisted = Some (demo_entry "gone.mp3" "QmGone" 3).
Proof.
  intros w file c persisted.
  split; [reflexivity|]. split; [reflexivity|].
  assert (Hr : reachable w file c)
    by (apply scanAndIndex_run_reachable; discriminate).
  assert (Hsave : save_interruption w <> MidWrite) by discriminate.
  destruct (snapshot_entries_survive Hr Hsave) as (_ & Hkeys & Hunwritten & _).
  split; [exact Hkeys|].
  unfold persisted. rewrite (Hunwritten "gone.mp3"); [reflexivity|].
  intros Hin. vm_compute in Hin. intuition discriminate.
Defined.

(** *** Failures *)

Lemma not_indexable_not_assignable (k : Kind) :
  indexable k = false -> assignable k = false.
Proof. now destruct k. Qed.

(** A value that takes no assignment is never assigned to. *)
Lemma unassignable_inv (w : World) (file : FileContent) (c : Config) :
  reachable w file c ->
  assignable (kind_of (loadState file)) = false ->
  written c = [] /\ added c = 0%nat /\ state c = props (loadState file).
Proof.
  intros H Hk.
  induction H as [|c c' Hc (IHw & IHa & IHs) Hstep] using reachable_ind.
  - simpl. auto.
  - rewrite <- (kind_inv Hc) in Hk.
    inversion Hstep; subst; clear Hstep.
    + unfold start_task, thrown.
      destruct (statSync w absPath) as [sz|]; simpl; auto.
      destruct (indexable (kind c)); simpl; auto.
      destruct (likely_unchanged _ sz); simpl; auto.
    + unfold meta_done; simpl. auto.
    + unfold add_done, thrown. rewrite Hk.
      destruct (ipfs_add w (task_path t)); simpl; auto.
    + unfold finish. destruct (saveState _ _ _). simpl. auto.
Qed.


Lemma failing_candidate_fails_run (w : World) (file : FileContent)
    (c : Config) (absPath : string) :
  reachable w file c -> settled c ->
  In absPath (candidates w) ->
  fails w file absPath ->
  failed c = true.
Proof.
  intros H (Hp & Hr & _) Hin Hfail.
  destruct (sched_inv H _ Hin) as [Hs|[(t & Ht & _)|[Hs|(sz & Hsz & Hs)]]].
  - rewrite Hp in Hs. destruct Hs.
  - rewrite Hr in Ht. destruct Ht.
  - exact Hs.
  - exfalso. destruct Hfail as [Hf|(sz' & Hsz' & Hcause)]; [congruence|].
    rewrite Hsz in Hsz'. injection Hsz' as <-.
    destruct Hcause as [Hi|(Hneed & Hcause)].
    + apply not_indexable_not_assignable in Hi.
      destruct (unassignable_inv H Hi) as (Hw & _).
      rewrite Hw in Hs. destruct Hs as [Hs|[]].
      rewrite props_not_object in Hs; [discriminate|].
      intros E. rewrite E in Hi. discriminate.
    + destruct Hs as [Hs|Hs].
      * unfold needsIngest in Hneed. rewrite Hs in Hneed. discriminate.
      * destruct Hcause as [Hadd|Hi].
        -- destruct (written_inv H) as (_ & Hw & _).
           destruct (Hw _ Hs) as (q & _ & c' & _ & Hq & Hrel & _ & Hqadd & _).
           apply rel_of_inj in Hrel; auto. congruence.
        -- destruct (unassignable_inv H Hi) as (Hw & _).
           rewrite Hw in Hs. destruct Hs.
Qed.

(** A catalog file that holds [null]: every task throws at [state[rel]]
    before anything is pushed, and the run is rejected. One that holds a
    number: every task pushes its file and throws at the assignment. *)
Lemma null_or_number_catalog_rejects_run :
  let w := demo_world (fun _ => false) (fun _ => None) in
  scanAndIndex w JsonNull = (Rejected, JsonNull)
  /\ pushes (scanAndIndex_run w JsonNull) = []
  /\ scanAndIndex w (JsonPrimitive (PNumber "5"))
     = (Rejected, JsonPrimitive (PNumber "5"))
  /\ pushes (scanAndIndex_run w (JsonPrimitive (PNumber "5")))
     = ["/music/a.mp3"; "/music/b.mp3"; "/music/d/c.flac"]
  /\ added (scanAndIndex_run w (JsonPrimitive (PNumber "5"))) = 0%nat.
Proof.
  vm_compute. repeat split.
Qed.

(** C1, as the claim states it, at three candidates of which the store
    rejects exactly one: the run does not return [{ total: 3, added: 2 }] but
    is rejected, and the catalog file is left as it was, without the two
    entries that were ingested. *)
Lemma push_failure_rejects_run :
  let w := demo_world (String.eqb "/music/b.mp3") (fun _ => None) in
  let file := Json [("b.mp3", demo_entry "b.mp3" "QmOld" 4)] in
  absFiles w = Some ["/music/a.mp3"; "/music/b.mp3"; "/music/d/c.flac"]
  /\ ipfs_add w "/music/a.mp3" <> None
  /\ ipfs_add w "/music/b.mp3" = None
  /\ ipfs_add w "/music/d/c.flac" <> None
  /\ scanAndIndex w file = (Rejected, file)
  /\ fst (scanAndIndex w file) <> Returned 3 2
  /\ get "a.mp3" (props (loadState (snd (scanAndIndex w file)))) = None
  /\ get "d/c.flac" (props (loadState (snd (scanAndIndex w file)))) = None.
Proof.
  vm_compute. repeat split; discriminate.
Qed.

(** C1, amended. When [statSync] or the store push throws for a candidate,
    the run is rejected: it returns no result, [saveState] is not called, and
    the catalog file stays exactly as it was before the run, so the failed
    file's previous entry is unchanged and the entries ingested for the other
    files are not persisted. A run returns only when no candidate has failed;
    it then reports the number of candidates as [total] and the number of
    ingestions as [added], and has written back the value it loaded: with
    the entries it assigned when the catalog file held a JSON object or was
    missing or unreadable, without them when the file held a JSON array. *)
Theorem failure_rejects_run (w : World) (file : FileContent) (c : Config) :
  reachable w file c ->
  (failed c = true -> outcome c = Rejected /\ disk c = file)
  /\ (settled c ->
      forall absPath, In absPath (candidates w) ->
        statSync w absPath = None
        \/ (exists sz, statSync w absPath = Some sz
               /\ needsIngest sz (get (relative (MUSIC_DIR w) absPath)
                                      (props (loadState file))) = true
               /\ ipfs_add w absPath = None) ->
        outcome c = Rejected /\ disk c = file)
  /\ (forall tot a, outcome c = Returned tot a ->
        failed c = false
        /\ tot = length (candidates w)
        /\ a = length (written c)
        /\ disk c = stringify (value (kind_of (loadState file)) (state c))
        /\ (kind_of (loadState file) = IsObject -> disk c = Json (state c))).
Proof.
  intros H. destruct (outcome_inv H) as (_ & Hfail & Hret & _).
  split; [exact Hfail|]. split.
  - intros Hs p Hp Hcause. apply Hfail.
    apply (failing_candidate_fails_run H Hs Hp).
    destruct Hcause as [Hstat|(sz & Hstat & Hneed & Hadd)]; [now left|].
    right. exists sz. split; [assumption|]. right. split; [assumption|].
    now left.
  - intros tot a Ho. destruct (Hret _ _ Ho) as (Hf & -> & -> & Hd & _).
    destruct (written_inv H) as (Ha & _).
    rewrite (kind_inv H) in Hd.
    repeat split; auto.
    intros E. rewrite Hd, E. reflexivity.
Qed.

Lemma failure_rejects_run_witness :
  let w := demo_world (String.eqb "/music/b.mp3") (fun _ => None) in
  let file := Json [("b.mp3", demo_entry "b.mp3" "QmOld" 4)] in
  let c := scanAndIndex_run w file in
  failed c = true /\ outcome c = Rejected /\ disk c = file.
Proof.
  intros w file c.
  assert (Hf : failed c = true) by reflexivity.
  split; [exact Hf|].
  assert (Hr : reachable w file c)
    by (apply scanAndIndex_run_reachable; discriminate).
  exact (proj1 (failure_rejects_run Hr) Hf).
Defined.

(** *** A second run *)

Lemma same_files_candidates (w1 w2 : World) :
  same_files w1 w2 ->
  absFiles w2 = absFiles w1 /\ candidates w2 = candidates w1
  /\ total_of w2 = total_of w1
  /\ forall p, rel_of w2 p = rel_of w1 p.
Proof.
  intros (Hd & Hm & _).
  unfold total_of, candidates, absFiles, rel_of. rewrite Hd, Hm. auto.
Qed.

(** After a run that returned, every candidate passes the guard. *)
Lemma returned_run_valid (w : World) (file : FileContent) (c : Config)
    (tot a : nat) :
  reachable w file c ->
  outcome c = Returned tot a ->
  forall p, In p (candidates w) ->
    exists sz, statSync w p = Some sz
               /\ likely_unchanged (get (rel_of w p) (state c)) sz = true.
Proof.
  intros H Ho p Hp.
  destruct (outcome_inv H) as (_ & _ & Hret & _).
  destruct (Hret _ _ Ho) as (Hf & _ & _ & _ & Hpend & Hrun & _).
  destruct (written_inv H) as (_ & Hw & Hu).
  destruct (sched_inv H _ Hp) as [Hs|[(t & Ht & _)|[Hs|(sz & Hsz & Hs)]]].
  - rewrite Hpend in Hs. destruct Hs.
  - rewrite Hrun in Ht. destruct Ht.
  - congruence.
  - exists sz. split; [assumption|].
    destruct (in_dec string_dec (rel_of w p) (written c)) as [Hin|Hin].
    + destruct (Hw _ Hin) as (q & sz' & c' & meta & Hq & Hrel & Hqs & Hqa & Hg).
      apply rel_of_inj in Hrel; auto. subst q.
      rewrite Hg. unfold likely_unchanged. simpl.
      assert (sz' = sz) by congruence. subst sz'.
      rewrite Z.eqb_refl. reflexivity.
    + destruct Hs as [Hs|Hs]; [|contradiction].
      now rewrite (Hu _ Hin).
Qed.

(** A run over a catalog in which every candidate passes the guard starts
    every task and suspends none. *)
Lemma skipping_run_inv (w : World) (file : FileContent) (c : Config) :
  (forall p, In p (candidates w) ->
     exists sz, statSync w p = Some sz
                /\ likely_unchanged (get (rel_of w p) (props (loadState file)))
                                    sz = true) ->
  reachable w file c ->
  state c = props (loadState file) /\ running c = [] /\ pushes c = []
  /\ added c = O /\ written c = [] /\ failed c = false.
Proof.
  intros Hvalid H. induction H as [|c c' Hc IH Hstep] using reachable_ind.
  - simpl. auto 6.
  - destruct IH as (Hst & Hrun & Hpu & Ha & Hw & Hf).
    destruct (queue_inv Hc) as [Hpend _].
    inversion Hstep; subst; clear Hstep.
    + assert (Hin : In absPath (candidates w)) by (apply Hpend; rewrite H; now left).
      destruct (Hvalid _ Hin) as (sz & Hsz & Hlu).
      assert (Hi : indexable (kind c) = true).
      { rewrite (kind_inv Hc). destruct (loadState file); try reflexivity.
        simpl in Hlu. discriminate. }
      unfold start_task, thrown. rewrite Hsz, Hi, Hst.
      fold (rel_of w absPath). rewrite Hlu.
      simpl. auto 6.
    + rewrite Hrun in H. now destruct before.
    + rewrite Hrun in H. now destruct before.
    + unfold finish. destruct (saveState _ _ _). simpl. auto 6.
Qed.

(** What a returned run leaves in the file is, read back, what it held in
    memory, unless the file held a JSON array. *)
Lemma returned_run_disk (w : World) (file : FileContent) (c : Config)
    (tot a : nat) :
  reachable w file c ->
  outcome c = Returned tot a ->
  (forall els, kind_of (loadState file) <> IsArray els) ->
  disk c = stringify (value (kind_of (loadState file)) (state c))
  /\ kind_of (loadState (disk c)) = kind_of (loadState file)
  /\ props (loadState (disk c)) = state c.
Proof.
  intros H Ho Hk.
  destruct (outcome_inv H) as (_ & _ & Hret & _).
  destruct (Hret _ _ Ho) as (_ & _ & _ & Hd & _).
  rewrite (kind_inv H) in Hd. rewrite Hd.
  destruct (loadState_stringify (kind_of (loadState file)) (state c))
    as [-> ->].
  repeat split.
  destruct (kind_of (loadState file)) eqn:E; try reflexivity.
  - now destruct (Hk elements).
  - symmetry. rewrite <- (props_not_object file) by (rewrite E; discriminate).
    apply (unassignable_inv H). now rewrite E.
  - symmetry. rewrite <- (props_not_object file) by (rewrite E; discriminate).
    apply (unassignable_inv H). now rewrite E.
Qed.

(** C3, as the claim states it, at a catalog file that holds a JSON array:
    the first run pushes the three files and returns
    [{ total: 3, added: 3 }], its entries are not in the file it writes, and
    the second run over the same files pushes the three files again and
    returns [added = 3]. *)
Lemma array_catalog_second_run_ingests_again :
  let w := demo_world (fun _ => false) (fun _ => None) in
  let file := JsonArray [] in
  let file1 := snd (scanAndIndex w file) in
  scanAndIndex w file = (Returned 3 3, JsonArray [])
  /\ pushes (scanAndIndex_run w file1)
     = ["/music/a.mp3"; "/music/b.mp3"; "/music/d/c.flac"]
  /\ fst (scanAndIndex w file1) = Returned 3 3.
Proof.
  vm_compute. repeat split.
Qed.

(** C3, amended. After a run that returned, over a catalog file that did not
    hold a JSON array, a second run over the same files, started from the
    catalog file the first one left, hands nothing to the store and adds
    nothing in any of its configurations, leaves the catalog as it is, and,
    unless its save is interrupted, returns [added = 0] for the same
    [total]. *)
Theorem second_run_ingests_nothing (w1 w2 : World) (file : FileContent)
    (c1 : Config) (tot a : nat) :
  same_files w1 w2 ->
  reachable w1 file c1 ->
  outcome c1 = Returned tot a ->
  (forall els, kind_of (loadState file) <> IsArray els) ->
  (forall c2, reachable w2 (disk c1) c2 ->
     pushes c2 = [] /\ in_flight c2 = O /\ added c2 = O
     /\ state c2 = state c1
     /\ forall tot' a', outcome c2 = Returned tot' a' -> tot' = tot /\ a' = O)
  /\ (save_interruption w2 = Completes ->
      scanAndIndex w2 (disk c1) = (Returned tot 0, disk c1)).
Proof.
  intros Hsame H1 Ho Hk.
  destruct (same_files_candidates Hsame) as (Habs & Hcand & Htot & Hrel).
  destruct (outcome_inv H1) as (_ & _ & Hret & _).
  destruct (Hret _ _ Ho) as (_ & -> & _).
  destruct (returned_run_disk H1 Ho Hk) as (Hd & Hkind & Hprops).
  assert (Hvalid : forall p, In p (candidates w2) ->
            exists sz, statSync w2 p = Some sz
                       /\ likely_unchanged
                            (get (rel_of w2 p) (props (loadState (disk c1))))
                            sz = true).
  { intros p Hp. rewrite Hcand in Hp.
    destruct (returned_run_valid H1 Ho p Hp) as (sz & Hsz & Hlu).
    exists sz. destruct Hsame as (_ & _ & Hstat).
    rewrite Hstat, Hrel, Hprops. auto. }
  assert (Hall : forall c2, reachable w2 (disk c1) c2 ->
            pushes c2 = [] /\ in_flight c2 = O /\ added c2 = O
            /\ state c2 = state c1
            /\ forall tot' a', outcome c2 = Returned tot' a' ->
                 tot' = total_of w1 /\ a' = O).
  { intros c2 H2.
    destruct (skipping_run_inv Hvalid H2) as (Hst & Hrun & Hpu & Ha & _).
    repeat split; auto.
    - unfold in_flight. now rewrite Hrun.
    - congruence.
    - destruct (outcome_inv H2) as (_ & _ & Hret2 & _).
      destruct (Hret2 _ _ H) as (_ & -> & _). exact Htot.
    - destruct (outcome_inv H2) as (_ & _ & Hret2 & _).
      destruct (Hret2 _ _ H) as (_ & _ & -> & _). exact Ha. }
  split; [exact Hall|].
  intros Hsave. unfold scanAndIndex.
  assert (Hw2 : absFiles w2 <> None) by (rewrite Habs; apply H1).
  destruct (@scanAndIndex_run_reachable w2 (disk c1) Hw2) as (H2 & _ & _ & Hnp).
  destruct (absFiles w2) eqn:E; [|congruence].
  set (c2 := scanAndIndex_run w2 (disk c1)) in *.
  destruct (skipping_run_inv Hvalid H2) as (Hst & _ & _ & Ha & _ & Hf).
  destruct (outcome_inv H2) as (_ & _ & Hret2 & Hrej).
  destruct (outcome c2) as [| |tot' a'] eqn:Ho2.
  - congruence.
  - destruct (Hrej eq_refl); congruence.
  - destruct (Hret2 _ _ eq_refl) as (_ & -> & -> & Hd2 & _).
    rewrite Hd2, (kind_inv H2), Hkind, Hst, Hprops, Ha, Htot, <- Hd.
    reflexivity.
Qed.

Lemma second_run_ingests_nothing_witness :
  let w := demo_world (fun _ => false) (fun _ => None) in
  let c1 := scanAndIndex_run w NoFile in
  outcome c1 = Returned 3 3
  /\ scanAndIndex w (disk c1) = (Returned 3 0, disk c1).
Proof.
  intros w c1.
  assert (Ho : outcome c1 = Returned 3 3) by reflexivity.
  split; [exact Ho|].
  assert (Hsame : same_files w w) by (repeat split).
  assert (Hr : reachable w NoFile c1)
    by (apply scanAndIndex_run_reachable; discriminate).
  assert (Hk : forall els, kind_of (loadState NoFile) <> IsArray els)
    by (intros els; discriminate).
  exact (proj2 (second_run_ingests_nothing Hsame Hr Ho Hk) eq_refl).
Defined.

(** Two calls do get in flight: both slots of the queue are taken and both
    tasks have passed [parseFile]. *)
Lemma at_most_two_pushes_in_flight_witness :
  let w := demo_world (fun _ => false) (fun _ => None) in
  let a := mkTask "/music/a.mp3" "a.mp3" 5 AwaitMeta in
  let b := mkTask "/music/b.mp3" "b.mp3" 5 AwaitMeta in
  let a' := mkTask "/music/a.mp3" "a.mp3" 5 (AwaitAdd empty_meta) in
  let c2 := start_task w "/music/b.mp3" ["/music/d/c.flac"]
              (start_task w "/music/a.mp3" ["/music/b.mp3"; "/music/d/c.flac"]
                 (init (candidates w) NoFile)) in
  let c4 := meta_done w [a'] b [] (meta_done w [] a [b] c2) in
  in_flight c4 = 2%nat /\ (in_flight c4 <= 2)%nat.
Proof.
  intros w a b a' c2 c4. split; [reflexivity|].
  apply (at_most_two_pushes_in_flight (w := w) (file := NoFile)).
  split; [discriminate|].
  eapply steps_step; [eapply steps_step; [eapply steps_step;
    [eapply steps_step; [apply steps_refl|]|]|]|].
  - apply step_start; [reflexivity|]. unfold concurrency. simpl. lia.
  - apply step_start; [reflexivity|]. unfold concurrency. simpl. lia.
  - apply (step_meta w (total_of w) c2 [] a [b]); reflexivity.
  - apply (step_meta w (total_of w) (meta_done w [] a [b] c2) [a'] b []);
      reflexivity.
Defined.

(** * Further properties of the server *)

(** *** What tasks and assigned keys stand for *)

Lemma stale_at_start (w : World) (file : FileContent) (c : Config)
    (p : string) (sz : Z) :
  reachable w file c ->
  In p (candidates w) ->
  statSync w p = Some sz ->
  likely_unchanged (get (rel_of w p) (state c)) sz = false ->
  stale w file p sz = true.
Proof.
  intros H Hp Hs Hlu. unfold stale, needsIngest.
  destruct (written_inv H) as (_ & Hw & Hu).
  destruct (in_dec string_dec (rel_of w p) (written c)) as [Hin|Hin].
  - destruct (Hw _ Hin) as (q & sz' & res & meta & Hq & Hrel & Hqs & _ & Hg).
    apply rel_of_inj in Hrel; auto. subst q.
    assert (sz' = sz) by congruence. subst sz'.
    rewrite Hg in Hlu. unfold likely_unchanged in Hlu. simpl in Hlu.
    rewrite Z.eqb_refl in Hlu. discriminate.
  - rewrite <- (Hu _ Hin), Hlu. reflexivity.
Qed.

Lemma task_knows_pushes (w : World) (file : FileContent) (c c' : Config)
    (t : Task) :
  incl (pushes c) (pushes c') ->
  task_knows w file c t -> task_knows w file c' t.
Proof.
  intros Hincl [Hst Hph]. split; [assumption|].
  destruct (task_phase t); [exact I|]. destruct Hph. auto.
Qed.

Lemma task_inv (w : World) (file : FileContent) (c : Config) :
  reachable w file c -> Forall (task_knows w file c) (running c).
Proof.
  intros H. induction H as [|c c' Hc IH Hstep] using reachable_ind.
  - constructor.
  - destruct (queue_inv Hc) as [Hpend Hrun].
    inversion Hstep; subst; clear Hstep.
    + unfold start_task, thrown. destruct (statSync w absPath) as [sz|] eqn:Hs; simpl; auto.
      destruct (indexable (kind c)); simpl; auto.
      destruct (likely_unchanged _ sz) eqn:Hlu; simpl; auto.
      apply Forall_app. split; [exact IH|].
      constructor; [|constructor]. split; simpl; [|exact I].
      eapply stale_at_start; eauto. apply Hpend. rewrite H. now left.
    + rewrite H in IH. apply Forall_middle in IH. destruct IH as (Hb & [Ht _] & Ha).
      unfold meta_done. simpl.
      assert (Hincl : incl (pushes c) (pushes c ++ [task_path t]))
        by (apply incl_appl, incl_refl).
      apply Forall_middle. repeat split.
      * eapply Forall_impl; [|exact Hb]. intros t0. now apply task_knows_pushes.
      * exact Ht.
      * apply in_or_app. right. now left.
      * eapply Forall_impl; [|exact Ha]. intros t0. now apply task_knows_pushes.
    + rewrite H in IH. apply Forall_middle in IH. destruct IH as (Hb & _ & Ha).
      unfold add_done, thrown.
      destruct (ipfs_add w (task_path t));
        [destruct (assignable (kind c))|]; simpl;
        apply Forall_app; split; assumption.
    + unfold finish. destruct (saveState _ _ _). exact IH.
Qed.

Lemma pushes_inv (w : World) (file : FileContent) (c : Config) :
  reachable w file c ->
  forall p, In p (pushes c) ->
    In p (candidates w)
    /\ exists sz, statSync w p = Some sz /\ stale w file p sz = true.
Proof.
  intros H. induction H as [|c c' Hc IH Hstep] using reachable_ind.
  - intros p [].
  - destruct (queue_inv Hc) as [_ Hrun]. pose proof (task_inv Hc) as Hknow.
    inversion Hstep; subst; clear Hstep.
    + unfold start_task, thrown. destruct (statSync w absPath) as [sz|]; simpl; auto.
      destruct (indexable (kind c)); simpl; auto.
      destruct (likely_unchanged _ sz); simpl; auto.
    + rewrite H in Hrun, Hknow.
      apply Forall_middle in Hrun. destruct Hrun as (_ & (Hin & _ & Hst) & _).
      apply Forall_middle in Hknow. destruct Hknow as (_ & [Hstale _] & _).
      unfold meta_done. simpl. intros p Hp. apply in_app_or in Hp.
      destruct Hp as [Hp|[<-|[]]]; eauto.
    + unfold add_done, thrown. destruct (ipfs_add w (task_path t)); simpl; auto.
      destruct (assignable (kind c)); simpl; auto.
    + unfold finish. destruct (saveState _ _ _). exact IH.
Qed.

Lemma written_entries (w : World) (file : FileContent) (c : Config) :
  reachable w file c ->
  forall k, In k (written c) ->
    exists p sz res,
      In p (candidates w) /\ k = rel_of w p
      /\ statSync w p = Some sz /\ ipfs_add w p = Some res
      /\ stale w file p sz = true /\ In p (pushes c)
      /\ get k (state c) = Some (entry_of w p sz res).
Proof.
  intros H. induction H as [|c c' Hc IH Hstep] using reachable_ind.
  - intros k [].
  - destruct (queue_inv Hc) as [_ Hrun]. pose proof (task_inv Hc) as Hknow.
    inversion Hstep; subst; clear Hstep.
    + unfold start_task, thrown. destruct (statSync w absPath) as [sz|]; simpl; auto.
      destruct (indexable (kind c)); simpl; auto.
      destruct (likely_unchanged _ sz); simpl; auto.
    + unfold meta_done. simpl. intros k Hk.
      destruct (IH k Hk) as (p & sz & res & Hp & Hrel & Hs & Ha & Hst & Hpu & Hg).
      exists p, sz, res. repeat split; auto. apply in_or_app. now left.
    + rewrite H in Hrun, Hknow.
      apply Forall_middle in Hrun. destruct Hrun as (_ & (Hin & Hrel & Hst) & _).
      apply Forall_middle in Hknow. destruct Hknow as (_ & [Hstale Hph] & _).
      rewrite H0 in Hph. destruct Hph as [-> Hpushed].
      unfold add_done, thrown. destruct (ipfs_add w (task_path t)) as [res|] eqn:Ha;
        simpl; auto.
      destruct (assignable (kind c)); simpl; auto.
      assert (Hnew : exists p sz res0,
                 In p (candidates w) /\ task_rel t = rel_of w p
                 /\ statSync w p = Some sz /\ ipfs_add w p = Some res0
                 /\ stale w file p sz = true /\ In p (pushes c)
                 /\ Some (new_entry (task_rel t) (CID_toString res) (task_size t)
                            (meta_for w (task_path t)) (mimeType w (task_path t)))
                    = Some (entry_of w p sz res0)).
      { exists (task_path t), (task_size t), res. repeat split; auto.
        unfold entry_of. now rewrite <- Hrel. }
      intros k [<-|Hk].
      * rewrite get_set_same. exact Hnew.
      * destruct (string_dec k (task_rel t)) as [->|Hne].
        -- rewrite get_set_same. exact Hnew.
        -- rewrite get_set_other by assumption. auto.
    + unfold finish. destruct (saveState _ _ _). exact IH.
Qed.

(** *** Metadata *)

Lemma js_or_default_nonempty (v : option string) (d : string) :
  d <> "" -> js_or_default v d <> "".
Proof.
  intros Hd. unfold js_or_default. destruct v as [s|]; [|assumption].
  destruct (String.eqb_spec s ""); assumption.
Qed.





(** *** Counting pushes and ingestions *)

Lemma filter_middle_length {A} (f : A -> bool) (before after : list A) (x : A) :
  length (filter f (before ++ x :: after))
  = (length (filter f before) + (if f x then 1 else 0)
     + length (filter f after))%nat.
Proof.
  rewrite filter_app, length_app. simpl. destruct (f x); simpl; lia.
Qed.

Lemma filter_app_length {A} (f : A -> bool) (l1 l2 : list A) :
  length (filter f (l1 ++ l2))
  = (length (filter f l1) + length (filter f l2))%nat.
Proof. now rewrite filter_app, length_app. Qed.

Lemma counting_inv (w : World) (file : FileContent) (c : Config) :
  reachable w file c ->
  (added c + in_flight c <= length (pushes c))%nat
  /\ (length (pushes c) + awaiting_meta c + length (pending c) <= total_of w)%nat.
Proof.
  intros H. induction H as [|c c' _ [IH1 IH2] Hstep] using reachable_ind.
  - unfold total_of, in_flight, awaiting_meta. simpl. lia.
  - unfold in_flight, awaiting_meta in *.
    inversion Hstep; subst; clear Hstep.
    + rewrite H in IH2. simpl in IH2. unfold start_task, thrown.
      destruct (statSync w absPath) as [sz|]; simpl; [|lia].
      destruct (indexable (kind c)); simpl; [|lia].
      destruct (likely_unchanged _ sz); simpl; [lia|].
      rewrite !filter_app_length. simpl. lia.
    + rewrite H in IH1, IH2. rewrite !filter_middle_length in *.
      rewrite H0 in *. unfold meta_done. simpl.
      rewrite !filter_middle_length, length_app. simpl. lia.
    + rewrite H in IH1, IH2. rewrite !filter_middle_length in *.
      rewrite H0 in *. unfold add_done, thrown.
      destruct (ipfs_add w (task_path t)); [destruct (assignable (kind c))|];
        simpl; rewrite !filter_app_length; lia.
    + unfold finish. destruct (saveState _ _ _). simpl. lia.
Qed.

(** X1. In every configuration of a run, each ingestion counted and each
    call in flight is a push made, and each push, each task waiting for
    [parseFile] and each queued candidate is a candidate of its own; so
    [added] never exceeds the pushes made, the pushes never exceed [total],
    and a returned [added] is at most the returned [total]. *)
Theorem added_at_most_pushes_at_most_total (w : World) (file : FileContent)
    (c : Config) :
  reachable w file c ->
  (added c + in_flight c <= length (pushes c))%nat
  /\ (length (pushes c) + awaiting_meta c + length (pending c)
      <= length (candidates w))%nat
  /\ (forall tot a, outcome c = Returned tot a ->
        (a <= length (pushes c) <= tot)%nat).
Proof.
  intros H. destruct (counting_inv H) as [H1 H2].
  split; [exact H1|]. split; [exact H2|].
  intros tot a Ho. destruct (outcome_inv H) as (_ & _ & Hret & _).
  destruct (Hret _ _ Ho) as (_ & -> & -> & _). unfold total_of in *. lia.
Qed.

Lemma added_at_most_pushes_at_most_total_witness :
  let w := demo_world (String.eqb "/music/b.mp3") (fun _ => None) in
  let c := scanAndIndex_run w NoFile in
  added c = 2%nat /\ length (pushes c) = 3%nat
  /\ (added c + in_flight c <= length (pushes c))%nat.
Proof.
  intros w c. split; [reflexivity|]. split; [reflexivity|].
  apply (added_at_most_pushes_at_most_total (w := w) (file := NoFile)).
  apply scanAndIndex_run_reachable. discriminate.
Defined.

(** X2. The store is only ever handed a candidate of the run whose size
    [statSync] gave and whose entry in the loaded catalog is missing, lacks a
    [cid] or records another size: a file the loaded catalog covers is never
    pushed, however the tasks interleave. *)
Theorem only_stale_candidates_are_pushed (w : World) (file : FileContent)
    (c : Config) :
  reachable w file c ->
  forall absPath, In absPath (pushes c) ->
    In absPath (candidates w)
    /\ exists sz,
         statSync w absPath = Some sz
         /\ needsIngest sz (get (relative (MUSIC_DIR w) absPath)
                                (props (loadState file))) = true.
Proof.
  intros H p Hp. destruct (pushes_inv H p Hp) as (Hin & sz & Hs & Hst).
  split; [exact Hin|]. exists sz. split; [exact Hs|exact Hst].
Qed.

Lemma only_stale_candidates_are_pushed_witness :
  let w := demo_world (fun _ => false) (fun _ => None) in
  let file := Json [("a.mp3", demo_entry "a.mp3" "QmA" 5);
                    ("b.mp3", demo_entry "b.mp3" "QmB" 4)] in
  let c := scanAndIndex_run w file in
  pushes c = ["/music/b.mp3"; "/music/d/c.flac"]
  /\ forall absPath, In absPath (pushes c) -> In absPath (candidates w).
Proof.
  intros w file c. split; [reflexivity|].
  intros p Hp.
  apply (only_stale_candidates_are_pushed (w := w) (file := file) (c := c));
    [|exact Hp].
  apply scanAndIndex_run_reachable. discriminate.
Defined.

(** *** The steps of a run are bounded *)

Lemma steps_in_weight (w : World) (total : nat) (c0 c : Config) (n : nat) :
  steps_in w total c0 n c -> (n + weight c <= weight c0)%nat.
Proof.
  induction 1 as [|n c c' _ IH Hstep]; [lia|].
  apply step_weight in Hstep. lia.
Qed.

(** The transition system of a run, in which every awaited call is taken to
    settle: from any configuration in which something is left to do a step is
    possible, and no sequence of steps is longer than three per candidate and
    one more for the save. That the calls of the program do settle is an
    assumption of the model, not a consequence of this lemma. *)
Lemma steps_are_bounded (w : World) (files : list string) (file : FileContent) :
  (forall c, ~ settled c -> exists c', step w (length files) c c')
  /\ (forall n c, steps_in w (length files) (init files file) n c ->
        (n <= 3 * length files + 1)%nat).
Proof.
  split.
  - intros c Hns. destruct (next w (length files) c) as [c'|] eqn:Hn.
    + exists c'. now apply next_step.
    + apply next_none in Hn. contradiction.
  - intros n c Hsteps. apply steps_in_weight in Hsteps.
    unfold weight in Hsteps at 2. simpl in Hsteps. lia.
Qed.

(** *** What a settled run has done *)

Lemma failed_cause (w : World) (file : FileContent) (c : Config) :
  reachable w file c ->
  failed c = true ->
  exists p, In p (candidates w) /\ fails w file p.
Proof.
  intros H. induction H as [|c c' Hc IH Hstep] using reachable_ind.
  - discriminate.
  - destruct (queue_inv Hc) as [Hpend Hrun]. pose proof (task_inv Hc) as Hknow.
    pose proof (kind_inv Hc) as Hk.
    inversion Hstep; subst; clear Hstep.
    + assert (Hin : In absPath (candidates w))
        by (apply Hpend; rewrite H; now left).
      unfold start_task, thrown.
      destruct (statSync w absPath) as [sz|] eqn:Hs; simpl.
      * destruct (indexable (kind c)) eqn:Hi; simpl.
        -- destruct (likely_unchanged _ sz); simpl; exact IH.
        -- intros _. exists absPath. split; [assumption|].
           right. exists sz. split; [assumption|]. left. now rewrite <- Hk.
      * intros _. exists absPath. split; [assumption|now left].
    + exact IH.
    + rewrite H in Hrun, Hknow.
      apply Forall_middle in Hrun. destruct Hrun as (_ & (Hin & _ & Hst) & _).
      apply Forall_middle in Hknow. destruct Hknow as (_ & [Hstale _] & _).
      unfold add_done, thrown.
      destruct (ipfs_add w (task_path t)) eqn:Ha; simpl.
      * destruct (assignable (kind c)) eqn:Hi; simpl; [exact IH|].
        intros _. exists (task_path t). split; [assumption|].
        right. exists (task_size t). split; [assumption|]. right.
        split; [exact Hstale|]. right. now rewrite <- Hk.
      * intros _. exists (task_path t). split; [assumption|].
        right. exists (task_size t). split; [assumption|]. right.
        split; [exact Hstale|]. now left.
    + unfold finish. destruct (saveState _ _ _). exact IH.
Qed.

Lemma settled_failed_iff (w : World) (file : FileContent) (c : Config) :
  reachable w file c -> settled c ->
  (failed c = true <-> exists p, In p (candidates w) /\ fails w file p).
Proof.
  intros H Hs. split.
  - now apply failed_cause.
  - intros (p & Hp & Hf). eapply failing_candidate_fails_run; eauto.
Qed.

Lemma settled_candidate (w : World) (file : FileContent) (c : Config)
    (p : string) :
  reachable w file c -> settled c -> failed c = false ->
  In p (candidates w) ->
  exists sz,
    statSync w p = Some sz
    /\ if stale w file p sz
       then exists res, ipfs_add w p = Some res
                        /\ get (rel_of w p) (state c) = Some (entry_of w p sz res)
       else get (rel_of w p) (state c) = get (rel_of w p) (props (loadState file)).
Proof.
  intros H (Hpend & Hrun & _) Hf Hp.
  destruct (written_inv H) as (_ & _ & Hu).
  pose proof (written_entries H) as Hw.
  destruct (sched_inv H _ Hp) as [Hs|[(t & Ht & _)|[Hs|(sz & Hsz & Hs)]]].
  - rewrite Hpend in Hs. destruct Hs.
  - rewrite Hrun in Ht. destruct Ht.
  - congruence.
  - exists sz. split; [assumption|].
    destruct (in_dec string_dec (rel_of w p) (written c)) as [Hin|Hin].
    + destruct (Hw _ Hin) as (q & sz' & res & Hq & Hrel & Hqs & Hqa & Hst & _ & Hg).
      apply rel_of_inj in Hrel; auto. subst q.
      assert (sz' = sz) by congruence. subst sz'.
      rewrite Hst. eauto.
    + destruct Hs as [Hs|Hs]; [|contradiction].
      unfold stale, needsIngest. rewrite Hs. simpl. now apply Hu.
Qed.

Lemma settled_other_key (w : World) (file : FileContent) (c : Config)
    (k : string) :
  reachable w file c ->
  ~ In k (map (rel_of w) (candidates w)) ->
  get k (state c) = get k (props (loadState file)).
Proof.
  intros H Hk. destruct (written_inv H) as (_ & Hw & Hu).
  apply Hu. intros Hin.
  destruct (Hw _ Hin) as (p & _ & _ & _ & Hp & -> & _).
  apply Hk. now apply in_map.
Qed.

(** After the save: the catalog file is what [saveState] made of the one the
    run found. *)
Lemma saved_inv (w : World) (file : FileContent) (c : Config) :
  reachable w file c -> settled c -> failed c = false ->
  let v := value (kind_of (loadState file)) (state c) in
  disk c = fst (saveState (save_interruption w) file v)
  /\ outcome c = if snd (saveState (save_interruption w) file v)
                 then Returned (total_of w) (added c) else Rejected.
Proof.
  intros H. induction H as [|c c' Hc IH Hstep] using reachable_ind.
  - intros (_ & _ & Ho). now destruct Ho.
  - intros (Hpend & Hrun & Ho) Hf.
    destruct (save_once Hc) as [(Hd & [(Hoc & Hfc)|(Hoc & Hfc)])
                               |(Hp & Hr & _ & Hpost)].
    + inversion Hstep; subst; clear Hstep.
      * exfalso. unfold start_task, thrown in *.
        destruct (statSync w absPath); simpl in *; [|congruence].
        destruct (indexable (kind c)); simpl in *; [|congruence].
        destruct (likely_unchanged _ _); simpl in *; congruence.
      * exfalso. unfold meta_done in *. simpl in *. congruence.
      * exfalso. unfold add_done, thrown in *.
        destruct (ipfs_add w (task_path t));
          [destruct (assignable (kind c))|]; simpl in *; congruence.
      * cbv zeta. rewrite <- (kind_inv Hc). unfold finish.
        destruct (save_interruption w); simpl; auto.
    + exfalso. inversion Hstep; subst; clear Hstep.
      * unfold start_task, thrown in *.
        destruct (statSync w absPath); simpl in *; [|congruence].
        destruct (indexable (kind c)); simpl in *; [|congruence].
        destruct (likely_unchanged _ _); simpl in *; congruence.
      * unfold meta_done in *. simpl in *. congruence.
      * unfold add_done, thrown in *.
        destruct (ipfs_add w (task_path t));
          [destruct (assignable (kind c))|]; simpl in *; congruence.
      * congruence.
    + exfalso. inversion Hstep; subst; clear Hstep.
      * congruence.
      * rewrite Hr in H. now destruct before.
      * rewrite Hr in H. now destruct before.
      * destruct Hpost as [(Hoc & _)|(Hoc & _)]; congruence.
Qed.

(** *** Each candidate once *)

Lemma NoDup_app_swap {A} (l1 l2 : list A) :
  NoDup (l1 ++ l2) -> NoDup (l2 ++ l1).
Proof.
  intros H. eapply Permutation_NoDup; [|exact H].
  apply Permutation_app_comm.
Qed.

Lemma once_inv (w : World) (file : FileContent) (c : Config) :
  NoDup (candidates w) ->
  reachable w file c ->
  NoDup (pending c ++ map task_path (running c))
  /\ NoDup (written c)
  /\ forall p, In p (pending c ++ map task_path (running c)) ->
       ~ In (rel_of w p) (written c).
Proof.
  intros Hnd H. induction H as [|c c' Hc (IH1 & IH2 & IH3) Hstep] using reachable_ind.
  - simpl. rewrite app_nil_r. repeat split; auto. constructor.
  - destruct (queue_inv Hc) as [Hpend Hrun].
    inversion Hstep; subst; clear Hstep.
    + rewrite H in IH1, IH3. simpl in IH1, IH3.
      assert (Hdrop : NoDup (rest ++ map task_path (running c))
                      /\ forall p, In p (rest ++ map task_path (running c)) ->
                           ~ In (rel_of w p) (written c)).
      { split; [now inversion IH1|]. intros p Hp. apply IH3. now right. }
      unfold start_task, thrown. destruct (statSync w absPath) as [sz|]; simpl;
        [|tauto].
      destruct (indexable (kind c)); simpl; [|tauto].
      destruct (likely_unchanged _ sz); simpl; [tauto|].
      rewrite map_app. simpl. repeat split; auto.
      * rewrite app_assoc. apply NoDup_app_swap. exact IH1.
      * intros p Hp. apply IH3. rewrite app_assoc in Hp.
        apply in_app_or in Hp. destruct Hp as [Hp|[<-|[]]]; auto.
    + unfold meta_done. simpl.
      rewrite H in IH1, IH3. rewrite map_app in *. simpl in *. auto.
    + rewrite H in IH1, IH3, Hrun. rewrite map_app in IH1, IH3. simpl in IH1, IH3.
      apply Forall_middle in Hrun. destruct Hrun as (Hb & (Hin & Hrel & _) & Ha).
      rewrite app_assoc in IH1, IH3.
      assert (Hnd' : NoDup ((pending c ++ map task_path before)
                            ++ map task_path after))
        by (eapply NoDup_remove_1; exact IH1).
      assert (Hnot : ~ In (task_path t) ((pending c ++ map task_path before)
                                         ++ map task_path after))
        by (eapply NoDup_remove_2; exact IH1).
      assert (Hsub : forall p, In p ((pending c ++ map task_path before)
                                     ++ map task_path after) ->
                       In p ((pending c ++ map task_path before)
                             ++ task_path t :: map task_path after)).
      { intros p Hp. apply in_app_or in Hp. apply in_or_app.
        destruct Hp; [now left|right; now right]. }
      unfold add_done, thrown.
      destruct (ipfs_add w (task_path t));
        [destruct (assignable (kind c))|]; simpl;
        rewrite map_app, app_assoc.
      * repeat split; auto.
        -- constructor; [|assumption]. rewrite Hrel. apply IH3.
           apply in_or_app. right. now left.
        -- intros p Hp [Heq|Hw]; [|now apply (IH3 p (Hsub p Hp))].
           rewrite Hrel in Heq. apply rel_of_inj in Heq; auto.
           ++ subst p. contradiction.
           ++ rewrite <- app_assoc in Hp. apply in_app_or in Hp.
              destruct Hp as [Hp|Hp]; [now apply Hpend|].
              rewrite <- map_app in Hp. apply in_map_iff in Hp.
              destruct Hp as (t' & <- & Ht').
              assert (Hall : Forall (task_wf w) (before ++ after))
                by (apply Forall_app; auto).
              rewrite Forall_forall in Hall. now apply Hall.
      * repeat split; auto.
      * repeat split; auto.
    + unfold finish. destruct (saveState _ _ _). simpl. auto.
Qed.

Lemma ingests_true (w : World) (file : FileContent) (p : string) :
  ingests w file p = true <->
  exists sz res, statSync w p = Some sz /\ stale w file p sz = true
                 /\ ipfs_add w p = Some res.
Proof.
  unfold ingests. split.
  - destruct (statSync w p) as [sz|]; [|discriminate].
    destruct (ipfs_add w p) as [res|]; rewrite andb_true_iff; intros [Hst Ha];
      [eauto|discriminate].
  - intros (sz & res & -> & -> & ->). reflexivity.
Qed.

(** The keys assigned by a settled run without failure are the keys of the
    candidates that had to be ingested. *)
Lemma settled_written (w : World) (file : FileContent) (c : Config) :
  reachable w file c -> settled c -> failed c = false ->
  forall k, In k (written c)
            <-> In k (map (rel_of w) (filter (ingests w file) (candidates w))).
Proof.
  intros H Hs Hf k. pose proof (written_entries H) as Hw.
  destruct (written_inv H) as (_ & _ & Hu). split.
  - intros Hin.
    destruct (Hw _ Hin) as (p & sz & res & Hp & -> & Hps & Hpa & Hst & _).
    apply in_map, filter_In. split; [assumption|].
    apply ingests_true. eauto.
  - intros Hin. apply in_map_iff in Hin. destruct Hin as (p & <- & Hp).
    apply filter_In in Hp. destruct Hp as [Hp Hing].
    apply ingests_true in Hing. destruct Hing as (sz & res & Hps & Hst & Hpa).
    destruct (@settled_candidate w file c p H Hs Hf Hp) as (sz' & Hps' & Hcase).
    assert (sz' = sz) by congruence. subst sz'. rewrite Hst in Hcase.
    destruct Hcase as (res' & _ & Hg).
    destruct (in_dec string_dec (rel_of w p) (written c)) as [Hin|Hin];
      [assumption|exfalso].
    rewrite (Hu _ Hin) in Hg.
    unfold stale, needsIngest in Hst. rewrite Hg in Hst.
    unfold entry_of, likely_unchanged in Hst. simpl in Hst.
    rewrite Z.eqb_refl in Hst. discriminate.
Qed.

Lemma NoDup_map_rel (w : World) (l : list string) :
  incl l (candidates w) -> NoDup l -> NoDup (map (rel_of w) l).
Proof.
  intros Hincl Hnd. induction Hnd as [|p l Hp Hnd IH]; simpl; [constructor|].
  constructor.
  - intros Hin. apply in_map_iff in Hin. destruct Hin as (q & Hrel & Hq).
    apply rel_of_inj in Hrel.
    + subst q. contradiction.
    + apply Hincl. now right.
    + apply Hincl. now left.
  - apply IH. intros x Hx. apply Hincl. now right.
Qed.

Lemma settled_added (w : World) (file : FileContent) (c : Config) :
  NoDup (candidates w) ->
  reachable w file c -> settled c -> failed c = false ->
  added c = length (filter (ingests w file) (candidates w)).
Proof.
  intros Hnd H Hs Hf.
  destruct (written_inv H) as (-> & _).
  destruct (once_inv Hnd H) as (_ & Hndw & _).
  transitivity (length (map (rel_of w) (filter (ingests w file) (candidates w))));
    [|apply length_map].
  apply Permutation_length, NoDup_Permutation.
  - exact Hndw.
  - apply NoDup_map_rel.
    + intros x Hx. apply filter_In in Hx. tauto.
    + now apply NoDup_filter.
  - now apply settled_written.
Qed.

(** *** The result does not depend on the schedule *)

Lemma run_steps_from (w : World) (total fuel : nat) (c0 c : Config) :
  steps w total c0 c -> steps w total c0 (run w total fuel c).
Proof.
  revert c. induction fuel as [|fuel IH]; intros c Hc; simpl; [assumption|].
  destruct (next w total c) as [c'|] eqn:Hn; [|assumption].
  apply IH. econstructor; [eassumption|]. now apply next_step.
Qed.

Lemma settled_state_agree (w : World) (file : FileContent) (c1 c2 : Config) :
  reachable w file c1 -> settled c1 -> failed c1 = false ->
  reachable w file c2 -> settled c2 -> failed c2 = false ->
  forall k, get k (state c1) = get k (state c2).
Proof.
  intros H1 Hs1 Hf1 H2 Hs2 Hf2 k.
  destruct (in_dec string_dec k (map (rel_of w) (candidates w))) as [Hin|Hin].
  - apply in_map_iff in Hin. destruct Hin as (p & <- & Hp).
    destruct (@settled_candidate w file c1 p H1 Hs1 Hf1 Hp) as (sz & Hsz & Hc1).
    destruct (@settled_candidate w file c2 p H2 Hs2 Hf2 Hp) as (sz' & Hsz' & Hc2).
    assert (sz' = sz) by congruence. subst sz'.
    destruct (stale w file p sz).
    + destruct Hc1 as (res & Ha & ->). destruct Hc2 as (res' & Ha' & ->).
      congruence.
    + congruence.
  - rewrite (@settled_other_key w file c1 k H1 Hin),
      (@settled_other_key w file c2 k H2 Hin). reflexivity.
Qed.

Lemma settled_agree (w : World) (file : FileContent) (c1 c2 : Config) :
  NoDup (candidates w) ->
  reachable w file c1 -> settled c1 ->
  reachable w file c2 -> settled c2 ->
  outcome c1 = outcome c2
  /\ forall k, get k (props (loadState (disk c1))) = get k (props (loadState (disk c2))).
Proof.
  intros Hnd H1 Hs1 H2 Hs2.
  pose proof (settled_failed_iff H1 Hs1) as Hi1.
  pose proof (settled_failed_iff H2 Hs2) as Hi2.
  destruct (failed c1) eqn:Hf1.
  - assert (Hf2 : failed c2 = true) by (apply Hi2, Hi1; reflexivity).
    destruct (outcome_inv H1) as (_ & Ho1 & _).
    destruct (outcome_inv H2) as (_ & Ho2 & _).
    destruct (Ho1 Hf1) as [-> ->]. destruct (Ho2 Hf2) as [-> ->]. auto.
  - assert (Hf2 : failed c2 = false).
    { destruct (failed c2); [|reflexivity].
      symmetry. apply Hi1, Hi2. reflexivity. }
    destruct (saved_inv H1 Hs1 Hf1) as [-> ->].
    destruct (saved_inv H2 Hs2 Hf2) as [-> ->].
    rewrite (settled_added Hnd H1 Hs1 Hf1), (settled_added Hnd H2 Hs2 Hf2).
    destruct (save_interruption w); simpl; split; auto.
    intros k.
    destruct (loadState_stringify (kind_of (loadState file)) (state c1))
      as [_ ->].
    destruct (loadState_stringify (kind_of (loadState file)) (state c2))
      as [_ ->].
    destruct (kind_of (loadState file)); [|reflexivity..].
    exact (settled_state_agree H1 Hs1 Hf1 H2 Hs2 Hf2 k).
Qed.

(** X4. The result of a run does not depend on the order in which the
    awaited calls settle: when the walk lists every file once, every
    interleaving of the tasks ends with the same promise, resolved with the
    same [total] and [added] or rejected, and with a catalog file that loads
    to the same entries, namely those the schedule of [scanAndIndex] above
    gives. *)
Theorem result_independent_of_schedule (w : World) (file : FileContent)
    (c : Config) :
  NoDup (candidates w) ->
  reachable w file c -> settled c ->
  outcome c = fst (scanAndIndex w file)
  /\ forall k, get k (props (loadState (disk c)))
               = get k (props (loadState (snd (scanAndIndex w file)))).
Proof.
  intros Hnd H Hs.
  assert (Hw : absFiles w <> None) by apply H.
  destruct (@scanAndIndex_run_reachable w file Hw) as [H' Hs'].
  pose proof (settled_agree Hnd H Hs H' Hs') as Hagree.
  unfold scanAndIndex. destruct (absFiles w); [|congruence]. exact Hagree.
Qed.

Lemma result_independent_of_schedule_witness :
  let w := demo_world (fun _ => false) (fun _ => None) in
  let a := mkTask "/music/a.mp3" "a.mp3" 5 AwaitMeta in
  let b := mkTask "/music/b.mp3" "b.mp3" 5 AwaitMeta in
  let b' := mkTask "/music/b.mp3" "b.mp3" 5 (AwaitAdd empty_meta) in
  let c2 := start_task w "/music/b.mp3" ["/music/d/c.flac"]
              (start_task w "/music/a.mp3" ["/music/b.mp3"; "/music/d/c.flac"]
                 (init (candidates w) NoFile)) in
  let c4 := add_done w [a] b' empty_meta [] (meta_done w [a] b [] c2) in
  let c := run w 3 10 c4 in
  keys (state c) = ["b.mp3"; "a.mp3"; "d/c.flac"]
  /\ keys (state (scanAndIndex_run w NoFile)) = ["a.mp3"; "b.mp3"; "d/c.flac"]
  /\ outcome c = fst (scanAndIndex w NoFile).
Proof.
  intros w a b b' c2 c4 c. split; [reflexivity|]. split; [reflexivity|].
  apply (result_independent_of_schedule (w := w) (file := NoFile) (c := c)).
  - unfold w, candidates. simpl. repeat constructor; simpl; intuition discriminate.
  - split; [discriminate|]. unfold c.
    assert (H4 : steps w (total_of w) (init (candidates w) NoFile) c4).
    { eapply steps_step; [eapply steps_step; [eapply steps_step;
        [eapply steps_step; [apply steps_refl|]|]|]|].
      - apply step_start; [reflexivity|]. unfold concurrency. simpl. lia.
      - apply step_start; [reflexivity|]. unfold concurrency. simpl. lia.
      - apply (step_meta w (total_of w) c2 [a] b []); reflexivity.
      - apply (@step_add w (total_of w) (meta_done w [a] b [] c2) [a] b'
                         empty_meta []); reflexivity. }
    exact (run_steps_from 10 H4).
  - apply run_settled. vm_compute. lia.
Defined.

(** *** The catalog a returned run leaves *)

Lemma returned_settled (w : World) (file : FileContent) (c : Config)
    (tot a : nat) :
  reachable w file c -> outcome c = Returned tot a ->
  settled c /\ failed c = false
  /\ disk c = stringify (value (kind_of (loadState file)) (state c))
  /\ tot = total_of w /\ a = added c.
Proof.
  intros H Ho. destruct (outcome_inv H) as (_ & _ & Hret & _).
  destruct (Hret _ _ Ho) as (Hf & Ht & Ha & Hd & Hp & Hr & _).
  rewrite (kind_inv H) in Hd.
  repeat split; auto. congruence.
Qed.

(** X5. When a run returns and the catalog file it loaded did not hold a
    JSON array, the catalog it has persisted is determined candidate by
    candidate: a candidate the loaded catalog covers keeps its
    loaded entry; any other candidate was taken by the store and has the
    entry built from the store's identifier, the size [statSync] gave, the
    metadata of [parseFile] and the looked-up mime type; every key that is
    not the key of a candidate holds what was loaded. When the walk lists
    every file once, [added] is the number of candidates that were not
    covered. *)
Theorem returned_run_catalog (w : World) (file : FileContent) (c : Config)
    (tot a : nat) :
  reachable w file c ->
  outcome c = Returned tot a ->
  (forall els, kind_of (loadState file) <> IsArray els) ->
  let persisted := props (loadState (disk c)) in
  (forall absPath, In absPath (candidates w) ->
     let rel := relative (MUSIC_DIR w) absPath in
     exists sz,
       statSync w absPath = Some sz
       /\ if needsIngest sz (get rel (props (loadState file)))
          then exists res,
                 ipfs_add w absPath = Some res
                 /\ get rel persisted
                    = Some (mkTrack rel (Some (CID_toString res)) (Some sz)
                              (meta_title (meta_for w absPath))
                              (meta_artist (meta_for w absPath))
                              (meta_album (meta_for w absPath))
                              (meta_duration (meta_for w absPath))
                              (Some (mimeType w absPath)))
          else get rel persisted = get rel (props (loadState file)))
  /\ (forall k, ~ In k (map (relative (MUSIC_DIR w)) (candidates w)) ->
        get k persisted = get k (props (loadState file)))
  /\ (NoDup (candidates w) ->
      a = length (filter (fun absPath =>
                            match statSync w absPath with
                            | Some sz =>
                                needsIngest sz
                                  (get (relative (MUSIC_DIR w) absPath)
                                       (props (loadState file)))
                            | None => false
                            end) (candidates w))).
Proof.
  intros H Ho Hk persisted.
  destruct (returned_settled H Ho) as (Hs & Hf & _ & -> & ->).
  destruct (returned_run_disk H Ho Hk) as (_ & _ & Hprops).
  subst persisted. rewrite Hprops. split; [|split].
  - intros p Hp.
    destruct (@settled_candidate w file c p H Hs Hf Hp) as (sz & Hsz & Hcase).
    exists sz. split; [assumption|]. exact Hcase.
  - intros k Hnot. exact (@settled_other_key w file c k H Hnot).
  - intros Hnd. rewrite (settled_added Hnd H Hs Hf).
    f_equal. apply filter_ext_in. intros p Hp.
    destruct (@settled_candidate w file c p H Hs Hf Hp) as (sz & Hsz & Hcase).
    unfold ingests. rewrite Hsz. unfold stale in *.
    destruct (needsIngest sz _); simpl; [|reflexivity].
    destruct Hcase as (res & -> & _). reflexivity.
Qed.

Lemma returned_run_catalog_witness :
  let w := demo_world (fun _ => false) (fun _ => None) in
  let file := Json [("a.mp3", demo_entry "a.mp3" "QmA" 5);
                    ("gone.mp3", demo_entry "gone.mp3" "QmGone" 3)] in
  let c := scanAndIndex_run w file in
  outcome c = Returned 3 2
  /\ get "gone.mp3" (props (loadState (disk c)))
     = Some (demo_entry "gone.mp3" "QmGone" 3).
Proof.
  intros w file c.
  assert (Ho : outcome c = Returned 3 2) by reflexivity.
  split; [exact Ho|].
  assert (Hr : reachable w file c)
    by (apply scanAndIndex_run_reachable; discriminate).
  assert (Hk : forall els, kind_of (loadState file) <> IsArray els)
    by (intros els; discriminate).
  destruct (returned_run_catalog Hr Ho Hk) as (_ & Hother & _).
  rewrite (Hother "gone.mp3"); [reflexivity|].
  simpl. intuition discriminate.
Defined.

Lemma filter_all_length {A} (f : A -> bool) (l : list A) :
  (forall x, In x l -> f x = true) -> length (filter f l) = length l.
Proof.
  induction l as [|x l IH]; simpl; intros Hall; [reflexivity|].
  rewrite (Hall x) by now left. simpl. f_equal. apply IH.
  intros y Hy. apply Hall. now right.
Qed.

(** X6. A run that finds no catalog, an unreadable one or one that holds
    the empty object, and returns, has ingested every candidate: each candidate has an entry under
    its key, and, when the walk lists every file once, [added] equals
    [total]. *)
Theorem first_run_ingests_everything (w : World) (file : FileContent)
    (c : Config) (tot a : nat) :
  loadState file = Object [] ->
  reachable w file c ->
  outcome c = Returned tot a ->
  (forall absPath, In absPath (candidates w) ->
     exists t, get (relative (MUSIC_DIR w) absPath) (props (loadState (disk c))) = Some t
               /\ relativePath t = relative (MUSIC_DIR w) absPath
               /\ size t = statSync w absPath
               /\ option_map CID_toString (ipfs_add w absPath) = cid t)
  /\ (NoDup (candidates w) -> a = tot).
Proof.
  intros Hempty H Ho.
  destruct (returned_settled H Ho) as (Hs & Hf & Hd & -> & ->).
  rewrite Hempty in Hd. simpl in Hd.
  assert (Hall : forall p, In p (candidates w) ->
            exists sz res, statSync w p = Some sz /\ ipfs_add w p = Some res
                           /\ get (rel_of w p) (state c)
                              = Some (entry_of w p sz res)).
  { intros p Hp.
    destruct (@settled_candidate w file c p H Hs Hf Hp) as (sz & Hsz & Hcase).
    unfold stale in Hcase. rewrite Hempty in Hcase. simpl in Hcase.
    destruct Hcase as (res & Ha & Hg). eauto. }
  split.
  - intros p Hp. destruct (Hall p Hp) as (sz & res & Hsz & Ha & Hg).
    rewrite Hd. simpl. eexists. split; [exact Hg|].
    rewrite Hsz, Ha. repeat split.
  - intros Hnd. rewrite (settled_added Hnd H Hs Hf). unfold total_of.
    apply filter_all_length. intros p Hp.
    destruct (Hall p Hp) as (sz & res & Hsz & Ha & _).
    unfold ingests, stale. rewrite Hsz, Ha, Hempty. reflexivity.
Qed.

Lemma first_run_ingests_everything_witness :
  let w := demo_world (fun _ => false) (fun _ => None) in
  let c := scanAndIndex_run w Torn in
  outcome c = Returned 3 3
  /\ forall absPath, In absPath (candidates w) ->
       exists t, get (relative (MUSIC_DIR w) absPath) (props (loadState (disk c))) = Some t
                 /\ relativePath t = relative (MUSIC_DIR w) absPath
                 /\ size t = statSync w absPath
                 /\ option_map CID_toString (ipfs_add w absPath) = cid t.
Proof.
  intros w c.
  assert (Ho : outcome c = Returned 3 3) by reflexivity.
  split; [exact Ho|].
  assert (Hr : reachable w Torn c)
    by (apply scanAndIndex_run_reachable; discriminate).
  exact (proj1 (first_run_ingests_everything (file := Torn) eq_refl Hr Ho)).
Defined.

(** *** Catalogs written by the server *)

Lemma keys_set_cases (k : string) (t : Track) (st : Catalog) :
  (In k (keys st) /\ keys (set k t st) = keys st)
  \/ (~ In k (keys st) /\ keys (set k t st) = keys st ++ [k]).
Proof.
  unfold keys. induction st as [|[k0 t0] st IH]; simpl.
  - right. split; [tauto|reflexivity].
  - destruct (String.eqb_spec k0 k) as [->|Hne]; simpl.
    + left. auto.
    + destruct IH as [[Hin Heq]|[Hin Heq]]; rewrite Heq.
      * left. auto.
      * right. split; [tauto|reflexivity].
Qed.

Lemma set_NoDup (k : string) (t : Track) (st : Catalog) :
  NoDup (keys st) -> NoDup (keys (set k t st)).
Proof.
  intros Hnd. destruct (keys_set_cases k t st) as [[_ ->]|[Hin ->]]; auto.
  apply NoDup_app_swap. simpl. now constructor.
Qed.

Lemma set_length (k : string) (t : Track) (st : Catalog) :
  (length st <= length (set k t st))%nat.
Proof.
  induction st as [|[k0 t0] st IH]; simpl; [lia|].
  destruct (k0 =? k)%string; simpl; lia.
Qed.

Lemma set_Forall (P : string * Track -> Prop) (k : string) (t : Track)
    (st : Catalog) :
  Forall P st -> P (k, t) -> Forall P (set k t st).
Proof.
  intros Hall Hk. induction Hall as [|[k0 t0] st H0 Hall IH]; simpl.
  - constructor; [assumption|constructor].
  - destruct (String.eqb_spec k0 k) as [->|Hne]; constructor; auto.
Qed.

Lemma new_entry_wf (rel : string) (res : CID) (sz : Z) (meta : Meta)
    (w : World) (p : string) :
  entry_wf rel (new_entry rel (CID_toString res) sz meta (mimeType w p)).
Proof.
  unfold entry_wf, new_entry. simpl. repeat split; eauto.
  apply negb_true_iff, String.eqb_neq.
  unfold mimeType. now apply js_or_default_nonempty.
Qed.

Lemma state_inv (w : World) (file : FileContent) (c : Config) :
  reachable w file c ->
  (catalog_wf (props (loadState file)) -> catalog_wf (state c))
  /\ (length (props (loadState file)) <= length (state c))%nat
  /\ (forall k, In k (keys (props (loadState file))) -> In k (keys (state c))).
Proof.
  intros H. induction H as [|c c' _ (IH1 & IH2 & IH3) Hstep] using reachable_ind.
  - simpl. auto.
  - inversion Hstep; subst; clear Hstep.
    + unfold start_task, thrown. destruct (statSync w absPath) as [sz|]; simpl; auto.
      destruct (indexable (kind c)); simpl; auto.
      destruct (likely_unchanged _ sz); simpl; auto.
    + unfold meta_done. simpl. auto.
    + unfold add_done, thrown. destruct (ipfs_add w (task_path t)) as [res|]; simpl; auto.
      destruct (assignable (kind c)); simpl; auto.
      split; [|split].
      * intros Hwf. destruct (IH1 Hwf) as [Hnd Hall]. split.
        -- now apply set_NoDup.
        -- apply set_Forall; [assumption|]. simpl. apply new_entry_wf.
      * pose proof (set_length (task_rel t)
                      (new_entry (task_rel t) (CID_toString res) (task_size t)
                                 meta (mimeType w (task_path t))) (state c)).
        lia.
      * intros k Hk. specialize (IH3 k Hk).
        destruct (keys_set_cases (task_rel t)
                    (new_entry (task_rel t) (CID_toString res) (task_size t)
                               meta (mimeType w (task_path t))) (state c))
          as [[_ ->]|[_ ->]]; [assumption|].
        apply in_or_app. now left.
    + unfold finish. destruct (saveState _ _ _). simpl. auto.
Qed.

Lemma catalog_wf_nil : catalog_wf [].
Proof. split; constructor. Qed.

Lemma ran_disk (w : World) (file file' : FileContent) :
  ran w file file' ->
  file' = file
  \/ (exists c, reachable w file c
                /\ file' = stringify (value (kind_of (loadState file))
                                            (state c)))
  \/ (file' = Torn /\ save_interruption w = MidWrite).
Proof.
  intros [Hw|c H Hs]; [now left|].
  destruct (failed c) eqn:Hf.
  - left. destruct (outcome_inv H) as (_ & Hfail & _). now apply Hfail.
  - destruct (saved_inv H Hs Hf) as [-> _].
    destruct (save_interruption w); simpl; eauto.
Qed.

(** X7. Whatever runs the server has made, each in the world it found and
    however it ended, a catalog whose entries were all written by
    [scanAndIndex] stays one: unique keys, every entry under its own
    [relativePath], with a non-empty [cid], a [size] and a non-empty [mime].
    A missing or unreadable file loads to such a catalog. *)
Theorem history_keeps_catalog_wf (ws : list World) (file file' : FileContent) :
  history ws file file' ->
  catalog_wf (props (loadState file)) ->
  catalog_wf (props (loadState file')).
Proof.
  induction 1 as [|w ws file file1 file2 Hran _ IH]; [auto|].
  intros Hwf. apply IH.
  destruct (ran_disk Hran) as [->|[(c & H & ->)|[-> _]]].
  - exact Hwf.
  - destruct (loadState_stringify (kind_of (loadState file)) (state c))
      as [_ ->].
    destruct (kind_of (loadState file)); try apply catalog_wf_nil.
    now apply (state_inv H).
  - apply catalog_wf_nil.
Qed.

Lemma history_keeps_catalog_wf_witness :
  let w1 := demo_world (fun _ => false) (fun _ => None) in
  let w2 := demo_world (String.eqb "/music/b.mp3") (fun _ => None) in
  let file1 := disk (scanAndIndex_run w1 NoFile) in
  let file2 := disk (scanAndIndex_run w2 file1) in
  length (props (loadState file2)) = 3%nat /\ catalog_wf (props (loadState file2)).
Proof.
  intros w1 w2 file1 file2. split; [reflexivity|].
  apply (@history_keeps_catalog_wf [w1; w2] NoFile file2);
    [|apply catalog_wf_nil].
  apply history_cons with file1.
  - apply ran_settled; apply scanAndIndex_run_reachable; discriminate.
  - apply history_cons with file2; [|constructor].
    apply ran_settled; apply scanAndIndex_run_reachable; discriminate.
Defined.




(** X9. On a catalog whose entries were all written by [scanAndIndex], the
    streaming route serves a known identifier with the [mime] recorded in the
    first entry that carries it, never with the default; the default
    [audio/mpeg] is served exactly for the identifiers no entry carries. *)
Theorem content_type_of_written_catalog (st : Catalog) (requested : string) :
  catalog_wf st ->
  (forall t, find_by_cid requested st = Some t ->
     mime t = Some (content_type st requested)
     /\ content_type st requested <> ""
     /\ get (relativePath t) st = Some t)
  /\ (find_by_cid requested st = None ->
      content_type st requested = "audio/mpeg").
Proof.
  intros [Hnd Hall]. split.
  - intros t Hfind. unfold content_type. rewrite Hfind.
    unfold find_by_cid, values in Hfind. apply find_some in Hfind.
    destruct Hfind as [Hin _]. apply in_map_iff in Hin.
    destruct Hin as ([k t'] & Ht & Hin). simpl in Ht. subst t'.
    rewrite Forall_forall in Hall. pose proof (Hall _ Hin) as Hwf.
    destruct Hwf as (Hrel & _ & _ & Hmime). simpl in *.
    apply truthy_spec in Hmime. destruct Hmime as (m & Hm & Hne).
    rewrite Hm. simpl. apply String.eqb_neq in Hne. rewrite Hne.
    repeat split.
    + now apply String.eqb_neq.
    + rewrite Hrel. clear - Hnd Hin. unfold keys in Hnd.
      induction st as [|[k0 t0] st IH]; simpl in *; [contradiction|].
      inversion Hnd as [|? ? Hk0 Hnd']; subst.
      destruct Hin as [[= -> ->]|Hin].
      * now rewrite String.eqb_refl.
      * destruct (String.eqb_spec k0 k) as [->|Hne]; [|auto].
        exfalso. apply Hk0. apply in_map_iff. exists (k, t). auto.
  - intros Hnone. unfold content_type. now rewrite Hnone.
Qed.

Lemma content_type_of_written_catalog_witness :
  let w := mkWorld "/music" (Some [Other "a.mp3"; Other "copy.flac"])
                   (fun _ => Some 5) (fun _ => None)
                   (fun _ => Some (mkCID "Q" "mSame"))
                   (fun p => if (p =? "/music/a.mp3")%string
                             then Some "audio/mpeg" else Some "audio/x-flac")
                   Completes in
  let st := state (scanAndIndex_run w NoFile) in
  content_type st "QmSame" = "audio/mpeg"
  /\ forall t, find_by_cid "QmSame" st = Some t ->
       mime t = Some (content_type st "QmSame")
       /\ content_type st "QmSame" <> ""
       /\ get (relativePath t) st = Some t.
Proof.
  intros w st. split; [reflexivity|].
  apply (content_type_of_written_catalog (st := st) "QmSame").
  assert (Hr : reachable w NoFile (scanAndIndex_run w NoFile))
    by (apply scanAndIndex_run_reachable; discriminate).
  apply (proj1 (state_inv Hr)). apply catalog_wf_nil.
Defined.

(** *** Paths, keys and extensions *)

Lemma after_last_path_join (dir r : string) :
  after_last "/" (path_join dir r) = Some (basename r).
Proof.
  unfold path_join, basename. induction dir as [|a dir IH]; simpl.
  - destruct (after_last "/" r); reflexivity.
  - simpl in IH. now rewrite IH.
Qed.

Lemma extname_path_join (dir r : string) :
  extname (path_join dir r) = extname r.
Proof.
  unfold extname. f_equal. unfold basename at 1.
  now rewrite after_last_path_join.
Qed.

Lemma isAudioFile_path_join (dir r : string) :
  isAudioFile (path_join dir r) = isAudioFile r.
Proof.
  unfold isAudioFile. now rewrite extname_path_join.
Qed.

(** X10. The key of a candidate names the candidate: joined to the music
    directory it gives the candidate's path back, it has an audio extension
    itself, and two different candidates never share a key. *)
Theorem candidate_keys (w : World) :
  (forall absPath, In absPath (candidates w) ->
     path_join (MUSIC_DIR w) (relative (MUSIC_DIR w) absPath) = absPath
     /\ isAudioFile absPath = true
     /\ isAudioFile (relative (MUSIC_DIR w) absPath) = true)
  /\ (forall p q, In p (candidates w) -> In q (candidates w) ->
        relative (MUSIC_DIR w) p = relative (MUSIC_DIR w) q -> p = q).
Proof.
  split.
  - intros p Hp.
    assert (Haudio : isAudioFile p = true).
    { unfold candidates, absFiles in Hp.
      destruct (walk (MUSIC_DIR w) (music w)); simpl in Hp; [|contradiction].
      apply filter_In in Hp. tauto. }
    pose proof (candidates_below w) as Hbelow. rewrite Forall_forall in Hbelow.
    destruct (Hbelow _ Hp) as [r ->].
    rewrite relative_path_join. repeat split; auto.
    now rewrite isAudioFile_path_join in Haudio.
  - intros p q. apply rel_of_inj.
Qed.

Lemma mentions_after_last (c : ascii) (s : string) :
  mentions c s = false <-> after_last c s = None.
Proof.
  induction s as [|a s IH]; simpl; [tauto|].
  rewrite orb_false_iff, IH. destruct (after_last c s); split.
  - intros [_ H]. discriminate.
  - discriminate.
  - intros [-> _]. reflexivity.
  - destruct (Ascii.eqb a c); [discriminate|auto].
Qed.

Lemma after_last_app_some (c : ascii) (a b t : string) :
  after_last c b = Some t -> after_last c (a ++ b)%string = Some t.
Proof.
  intros H. induction a as [|x a IH]; simpl; [assumption|]. now rewrite IH.
Qed.

Lemma after_last_dot_ext (c : ascii) (ext : string) :
  mentions c ext = false ->
  after_last c (String c ext) = Some ext.
Proof.
  intros H. apply mentions_after_last in H. simpl.
  now rewrite H, Ascii.eqb_refl.
Qed.

Lemma basename_name (dir name : string) :
  mentions "/" name = false -> basename (path_join dir name) = name.
Proof.
  intros H. unfold basename at 1. rewrite after_last_path_join.
  apply mentions_after_last in H. unfold basename. now rewrite H.
Qed.

Lemma mentions_app (c : ascii) (a b : string) :
  mentions c (a ++ b)%string = mentions c a || mentions c b.
Proof.
  induction a as [|x a IH]; simpl; [reflexivity|].
  now rewrite IH, orb_assoc.
Qed.

Lemma toLowerCase_dot (ext : string) :
  toLowerCase ("." ++ ext)%string = ("." ++ toLowerCase ext)%string.
Proof. reflexivity. Qed.

Lemma audio_ext_iff (l : string) :
  existsb (String.eqb ("." ++ l)%string) AUDIO_EXTS = true
  <-> In l ["mp3"; "flac"; "m4a"; "aac"; "wav"; "ogg"; "opus"].
Proof.
  unfold AUDIO_EXTS. simpl.
  rewrite !orb_true_iff, !String.eqb_eq.
  intuition congruence.
Qed.

(** X11. Only the last extension of the file name decides, in any case of
    letters and in any directory: a file [stem.ext] with a non-empty stem is a
    candidate exactly when [ext], lowered, is one of the seven audio
    extensions. A non-empty name without a dot is never a candidate, and
    neither is a name whose only dot comes first, such as [.mp3]. *)
Theorem isAudioFile_by_extension (dir stem ext : string) :
  mentions "/" stem = false ->
  mentions "/" ext = false ->
  mentions "." ext = false ->
  (stem <> "" ->
   (isAudioFile (path_join dir (stem ++ "." ++ ext)) = true
    <-> In (toLowerCase ext)
           ["mp3"; "flac"; "m4a"; "aac"; "wav"; "ogg"; "opus"]))
  /\ (ext <> "" -> isAudioFile (path_join dir ext) = false)
  /\ isAudioFile (path_join dir ("." ++ ext)) = false.
Proof.
  intros Hstem Hext Hdot. split; [|split].
  - intros Hne. destruct stem as [|x stem]; [congruence|].
    assert (Hname : mentions "/" (String x stem ++ "." ++ ext)%string = false).
    { rewrite mentions_app, Hstem. simpl. exact Hext. }
    unfold isAudioFile, extname. rewrite (@basename_name dir _ Hname).
    change (String x stem ++ "." ++ ext)%string
      with (String x (stem ++ String "." ext)).
    cbv beta iota.
    rewrite (@after_last_app_some "." stem (String "." ext) ext
               (@after_last_dot_ext "." ext Hdot)).
    destruct (String.eqb_spec (String x (stem ++ String "." ext)) "..")
      as [Heq|_].
    + injection Heq as _ Heq.
      assert (Hext' : ext = "").
      { destruct stem as [|y stem]; simpl in Heq; [congruence|].
        injection Heq as _ Heq. now destruct stem. }
      subst ext. simpl. split; [discriminate|].
      intros H. simpl in H. intuition discriminate.
    + rewrite toLowerCase_dot. apply audio_ext_iff.
  - intros Hne.
    unfold isAudioFile, extname. rewrite (@basename_name dir _ Hext).
    destruct ext as [|x ext]; [congruence|].
    simpl in Hdot. apply orb_false_iff in Hdot. destruct Hdot as [_ Hdot].
    apply mentions_after_last in Hdot. now rewrite Hdot.
  - assert (Hname : mentions "/" ("." ++ ext)%string = false) by exact Hext.
    unfold isAudioFile, extname. rewrite (@basename_name dir _ Hname). simpl.
    apply mentions_after_last in Hdot. now rewrite Hdot.
Qed.

Lemma isAudioFile_by_extension_witness :
  (isAudioFile "/music/Live.Set/Track 01.FLAC" = true
   <-> In "flac" ["mp3"; "flac"; "m4a"; "aac"; "wav"; "ogg"; "opus"])
  /\ (isAudioFile "/music/notes.mp3.txt" = true
      <-> In "txt" ["mp3"; "flac"; "m4a"; "aac"; "wav"; "ogg"; "opus"])
  /\ isAudioFile "/music/mp3" = false
  /\ isAudioFile "/music/.mp3" = false.
Proof.
  assert (Hstem : "Track 01" <> "") by discriminate.
  assert (Hstem' : "notes.mp3" <> "") by discriminate.
  assert (Hext : "mp3" <> "") by discriminate.
  split; [|split; [|split]].
  - exact (proj1 (isAudioFile_by_extension "/music/Live.Set" "Track 01" "FLAC"
                    eq_refl eq_refl eq_refl) Hstem).
  - exact (proj1 (isAudioFile_by_extension "/music" "notes.mp3" "txt"
                    eq_refl eq_refl eq_refl) Hstem').
  - exact (proj1 (proj2 (isAudioFile_by_extension "/music" "" "mp3"
                           eq_refl eq_refl eq_refl)) Hext).
  - exact (proj2 (proj2 (isAudioFile_by_extension "/music" "" "mp3"
                           eq_refl eq_refl eq_refl))).
Defined.

(** *** The walk lists each file once *)

Lemma distinct_NoDup (names : list string) :
  distinct names = true -> NoDup names.
Proof.
  induction names as [|n rest IH]; simpl; [constructor|].
  rewrite andb_true_iff, negb_true_iff. intros [Hn Hrest].
  constructor; [|auto]. intros Hin.
  assert (existsb (String.eqb n) rest = true); [|congruence].
  apply existsb_exists. exists n. split; [assumption|apply String.eqb_refl].
Qed.

Lemma tree_ok_directory (name : string) (es : list Dirent) :
  tree_ok (Directory name (Some es))
  = negb (mentions "/" name) && listing_ok es.
Proof.
  reflexivity.
Qed.

Lemma head_segment_name (n x : string) :
  mentions "/" n = false ->
  x = "" \/ (exists r, x = String "/" r) ->
  head_segment (n ++ x) = n.
Proof.
  intros Hn Hx. induction n as [|a n IH]; simpl in *.
  - destruct Hx as [->|(r & ->)]; reflexivity.
  - apply orb_false_iff in Hn. destruct Hn as [Ha Hn].
    rewrite Ha. f_equal. auto.
Qed.

(** Every path listed for an entry starts, below [dir], with the entry's
    name. *)
Lemma files_below_head (e : Dirent) (dir p : string) :
  mentions "/" (name_of e) = false ->
  In p (files_below dir e) ->
  head_segment (relative dir p) = name_of e.
Proof.
  intros Hname Hin.
  assert (Hp : exists x, p = path_join dir (name_of e ++ x)
                         /\ (x = "" \/ exists r, x = String "/" r)).
  { destruct e as [name|name [es|]]; simpl in *.
    - destruct Hin as [<-|[]]. exists "". split; [|now left].
      unfold path_join. f_equal. f_equal. clear.
      induction name as [|a n IH]; simpl; congruence.
    - assert (Hin' : In p (files_under (path_join dir name) es)).
      { unfold files_under. clear - Hin.
        induction es as [|e rest IH]; simpl in *; [assumption|].
        apply in_app_or in Hin. apply in_or_app. tauto. }
      assert (Hbelow : below (path_join dir name) p).
      { unfold files_under in Hin'. apply in_flat_map in Hin'.
        destruct Hin' as (e & _ & He).
        pose proof (files_below_below e (path_join dir name)) as Hb.
        rewrite Forall_forall in Hb. auto. }
      destruct Hbelow as [r ->]. exists (String "/" r). split; [|eauto].
      unfold path_join. now rewrite !append_assoc.
    - destruct Hin. }
  destruct Hp as (x & -> & Hx).
  rewrite relative_path_join. now apply head_segment_name.
Qed.

Lemma NoDup_flat_map_by_key {A B K : Type} (f : A -> list B) (key : A -> K)
    (kb : B -> K) (l : list A) :
  Forall (fun a => NoDup (f a)) l ->
  (forall a b, In a l -> In b (f a) -> kb b = key a) ->
  NoDup (map key l) ->
  NoDup (flat_map f l).
Proof.
  intros Hall Hkey Hnd. induction Hall as [|a l Ha Hall IH]; simpl;
    [constructor|].
  inversion Hnd as [|? ? Hnot Hnd']; subst.
  apply NoDup_app; [assumption| |].
  - apply IH; [|assumption]. intros a' b Ha' Hb. apply Hkey; [now right|assumption].
  - intros b Hb Hb'. apply in_flat_map in Hb'. destruct Hb' as (a' & Ha' & Hb').
    apply Hnot. apply in_map_iff. exists a'. split; [|assumption].
    rewrite <- (Hkey a' b) by (auto; now right).
    apply Hkey; [now left|assumption].
Qed.

Lemma files_under_NoDup (dir : string) (es : list Dirent) :
  Forall (fun e => tree_ok e = true -> forall d, NoDup (files_below d e)) es ->
  listing_ok es = true ->
  NoDup (files_under dir es).
Proof.
  intros IH Hok. unfold listing_ok in Hok.
  apply andb_true_iff in Hok. destruct Hok as [Hdist Hall].
  rewrite forallb_forall in Hall. unfold files_under.
  apply NoDup_flat_map_by_key
    with (key := name_of) (kb := fun p => head_segment (relative dir p)).
  - rewrite Forall_forall in *. intros e He. apply IH; auto.
  - intros e p He Hp. apply files_below_head; [|assumption].
    specialize (Hall e He). destruct e as [n|n l]; simpl in Hall;
      apply andb_true_iff in Hall; destruct Hall as [Hn _];
      now apply negb_true_iff in Hn.
  - now apply distinct_NoDup.
Qed.

Lemma files_below_NoDup (e : Dirent) :
  tree_ok e = true -> forall dir, NoDup (files_below dir e).
Proof.
  induction e as [name|name|name es IH] using Dirent_nested_ind;
    intros Hok dir.
  - simpl. constructor; [tauto|constructor].
  - constructor.
  - rewrite files_below_directory. rewrite tree_ok_directory in Hok.
    apply andb_true_iff in Hok. destruct Hok as [_ Hok].
    now apply files_under_NoDup.
Qed.

(** X12. On a tree as a file system shows it, where no name holds a
    separator and the names within a directory differ, and every directory
    can be read, the walk lists each file exactly once, and so does the list
    of candidates. *)
Theorem walk_lists_each_file_once (w : World) (entries : list Dirent) :
  music w = Some entries ->
  listing_ok entries = true ->
  (forall out, walk (MUSIC_DIR w) (music w) = Some out -> NoDup out)
  /\ NoDup (candidates w).
Proof.
  intros Hm Hok.
  assert (Hnd : NoDup (files_under (MUSIC_DIR w) entries)).
  { apply files_under_NoDup; [|assumption].
    apply Forall_forall. intros e _. apply files_below_NoDup. }
  assert (Hwalk : forall out, walk (MUSIC_DIR w) (music w) = Some out ->
                              out = files_under (MUSIC_DIR w) entries).
  { intros out. rewrite Hm. unfold walk. rewrite walk_loop_all.
    destruct (forallb readable entries); congruence. }
  split.
  - intros out Hout. now rewrite (Hwalk out Hout).
  - unfold candidates, absFiles.
    destruct (walk (MUSIC_DIR w) (music w)) as [out|] eqn:E; simpl;
      [|constructor].
    apply NoDup_filter. now rewrite (Hwalk out eq_refl).
Qed.

Lemma walk_lists_each_file_once_witness :
  NoDup (candidates (demo_world (fun _ => false) (fun _ => None))).
Proof.
  exact (proj2 (walk_lists_each_file_once
                  (demo_world (fun _ => false) (fun _ => None))
                  (entries := demo_tree) eq_refl eq_refl)).
Defined.

(** *** Metadata *)

Lemma join_nonempty (sep a : string) (l : list string) :
  a <> "" -> join sep (a :: l) <> "".
Proof.
  intros Ha. simpl. destruct l; [assumption|].
  destruct a; [congruence|discriminate].
Qed.

(** X13. The [artist] recorded for a file is the list [common.artists]
    joined with a comma and a space whenever that text is not empty, and the
    single [common.artist] otherwise: when the list is missing, when it is
    empty, and when it holds one empty name. *)
Theorem artist_prefers_artists_list (m : IAudioMetadata) :
  (forall a l, common_artists m = Some (a :: l) -> a <> "" ->
     meta_artist (meta_of m) = Some (join ", " (a :: l)))
  /\ (forall a b l, common_artists m = Some (a :: b :: l) ->
        meta_artist (meta_of m)
        = Some (a ++ ", " ++ join ", " (b :: l))%string)
  /\ (common_artists m = None \/ common_artists m = Some []
      \/ common_artists m = Some [""] ->
      meta_artist (meta_of m) = common_artist m).
Proof.
  unfold meta_of, js_or. cbn [meta_artist]. split; [|split].
  - intros a l Hart Ha. rewrite Hart. cbn [option_map truthy].
    pose proof (join_nonempty ", " l Ha) as Hne.
    apply String.eqb_neq in Hne. now rewrite Hne.
  - intros a b l Hart. rewrite Hart. simpl. destruct a; reflexivity.
  - intros [Hart|[Hart|Hart]]; rewrite Hart; reflexivity.
Qed.

(** *** When a run returns *)

(** X14. A run that has nothing left to do has returned exactly when no
    task threw and the save ran to its end; in every other case it is
    rejected. A task throws when [statSync] throws for its candidate, when
    the catalog file held [null], so that [state[rel]] throws, or, for a
    candidate the guard lets through, when the push is refused or the catalog
    file held a number, a string or a boolean, which takes no entry. What the
    run returns is the number of candidates and the number of ingestions. *)
Theorem run_returns_iff (w : World) (file : FileContent) (c : Config) :
  reachable w file c -> settled c ->
  (outcome c = Returned (length (candidates w)) (added c)
   <-> (forall absPath, In absPath (candidates w) -> ~ fails w file absPath)
       /\ save_interruption w = Completes)
  /\ (outcome c = Rejected
      <-> (exists absPath, In absPath (candidates w) /\ fails w file absPath)
          \/ save_interruption w <> Completes)
  /\ (outcome c = Rejected \/ outcome c = Returned (length (candidates w)) (added c)).
Proof.
  intros H Hs. pose proof (settled_failed_iff H Hs) as Hiff.
  fold (total_of w).
  destruct (failed c) eqn:Hf.
  - destruct (outcome_inv H) as (_ & Hfail & _).
    destruct (Hfail Hf) as [Ho _]. rewrite Ho.
    assert (Hex : exists p, In p (candidates w) /\ fails w file p)
      by (now apply Hiff).
    split; [|split].
    + split; [discriminate|]. intros [Hall _].
      destruct Hex as (p & Hp & Hfails). now destruct (Hall p Hp).
    + split; auto.
    + now left.
  - assert (Hnone : forall p, In p (candidates w) -> ~ fails w file p).
    { intros p Hp Hfails.
      assert (false = true); [|discriminate]. apply Hiff. eauto. }
    destruct (saved_inv H Hs Hf) as [_ Ho]. rewrite Ho.
    destruct (save_interruption w); simpl.
    + split; [|split].
      * split; auto.
      * split; [discriminate|].
        intros [(p & Hp & Hfails)|Hne]; [now destruct (Hnone p Hp)|congruence].
      * now right.
    + split; [|split].
      * split; [discriminate|]. intros [_ Hsave]. discriminate.
      * split; [|reflexivity]. intros _. right. discriminate.
      * now left.
    + split; [|split].
      * split; [discriminate|]. intros [_ Hsave]. discriminate.
      * split; [|reflexivity]. intros _. right. discriminate.
      * now left.
Qed.

Lemma run_returns_iff_witness :
  let w := demo_world (String.eqb "/music/b.mp3") (fun _ => None) in
  let file := Json [("b.mp3", demo_entry "b.mp3" "QmB" 5)] in
  let c := scanAndIndex_run w file in
  ipfs_add w "/music/b.mp3" = None
  /\ outcome c = Returned 3 2
  /\ (forall absPath, In absPath (candidates w) -> ~ fails w file absPath).
Proof.
  intros w file c. split; [reflexivity|].
  assert (Ho : outcome c = Returned 3 2) by reflexivity.
  split; [exact Ho|].
  assert (Hr : reachable w file c /\ settled c)
    by (apply scanAndIndex_run_reachable; discriminate).
  destruct Hr as [Hr Hs].
  exact (proj1 (proj1 (proj1 (run_returns_iff Hr Hs)) Ho)).
Defined.

(** *** The order of the catalog *)

Lemma keys_order_inv (w : World) (file : FileContent) (c : Config) :
  reachable w file c ->
  exists new,
    keys (state c) = keys (props (loadState file)) ++ new
    /\ forall k, In k new -> In k (written c) /\ ~ In k (keys (props (loadState file))).
Proof.
  intros H. induction H as [|c c' _ (new & Hkeys & Hnew) Hstep] using reachable_ind.
  - exists []. simpl. rewrite app_nil_r. split; [reflexivity|]. intros k [].
  - inversion Hstep; subst; clear Hstep.
    + unfold start_task, thrown. destruct (statSync w absPath) as [sz|]; simpl; eauto.
      destruct (indexable (kind c)); simpl; eauto.
      destruct (likely_unchanged _ sz); simpl; eauto.
    + unfold meta_done. simpl. eauto.
    + unfold add_done, thrown. destruct (ipfs_add w (task_path t)) as [res|]; simpl; eauto.
      destruct (assignable (kind c)); simpl; eauto.
      destruct (keys_set_cases (task_rel t)
                  (new_entry (task_rel t) (CID_toString res) (task_size t)
                             meta (mimeType w (task_path t))) (state c))
        as [[_ ->]|[Hnot ->]].
      * exists new. split; [assumption|].
        intros k Hk. destruct (Hnew k Hk). split; [now right|assumption].
      * exists (new ++ [task_rel t]). rewrite Hkeys, app_assoc.
        split; [reflexivity|].
        intros k Hk. apply in_app_or in Hk. destruct Hk as [Hk|[<-|[]]].
        -- destruct (Hnew k Hk). split; [now right|assumption].
        -- split; [now left|]. intros Hin. apply Hnot.
           rewrite Hkeys. apply in_or_app. now left.
    + unfold finish. destruct (saveState _ _ _). simpl. eauto.
Qed.

(** X15. A run never reorders the catalog: the keys it loaded stay first,
    in the order they had, whether their entries were overwritten or not,
    and the keys of newly ingested files follow them; so [GET /api/tracks]
    lists the tracks it listed before in the same order, and the first match
    of the streaming route among them does not move. *)
Theorem catalog_order_is_kept (w : World) (file : FileContent) (c : Config)
    (tot a : nat) :
  reachable w file c ->
  outcome c = Returned tot a ->
  exists new,
    keys (props (loadState (disk c))) = keys (props (loadState file)) ++ new
    /\ forall k, In k new ->
         ~ In k (keys (props (loadState file)))
         /\ exists absPath, In absPath (candidates w)
                            /\ k = relative (MUSIC_DIR w) absPath.
Proof.
  intros H Ho. destruct (returned_settled H Ho) as (_ & _ & Hd & _).
  rewrite Hd.
  destruct (loadState_stringify (kind_of (loadState file)) (state c))
    as [_ ->].
  destruct (kind_of (loadState file)) eqn:E.
  - destruct (keys_order_inv H) as (new & Hkeys & Hnew).
    exists new. split; [exact Hkeys|].
    intros k Hk. destruct (Hnew k Hk) as [Hw Hnot].
    split; [assumption|].
    destruct (written_inv H) as (_ & Hwr & _).
    destruct (Hwr k Hw) as (p & _ & _ & _ & Hp & -> & _). eauto.
  - exists []. rewrite props_not_object by (rewrite E; discriminate).
    split; [reflexivity|]. intros k [].
  - exists []. rewrite props_not_object by (rewrite E; discriminate).
    split; [reflexivity|]. intros k [].
  - exists []. rewrite props_not_object by (rewrite E; discriminate).
    split; [reflexivity|]. intros k [].
Qed.

Lemma catalog_order_is_kept_witness :
  let w := demo_world (fun _ => false) (fun _ => None) in
  let file := Json [("gone.mp3", demo_entry "gone.mp3" "QmGone" 3);
                    ("d/c.flac", demo_entry "d/c.flac" "QmOld" 1)] in
  let c := scanAndIndex_run w file in
  keys (props (loadState (disk c))) = ["gone.mp3"; "d/c.flac"; "a.mp3"; "b.mp3"]
  /\ exists new,
       keys (props (loadState (disk c))) = keys (props (loadState file)) ++ new
       /\ forall k, In k new ->
            ~ In k (keys (props (loadState file)))
            /\ exists absPath, In absPath (candidates w)
                               /\ k = relative (MUSIC_DIR w) absPath.
Proof.
  intros w file c. split; [reflexivity|].
  assert (Ho : outcome c = Returned 3 3) by reflexivity.
  assert (Hr : reachable w file c)
    by (apply scanAndIndex_run_reachable; discriminate).
  exact (catalog_order_is_kept Hr Ho).
Defined.
